(** * sound-machine: the sample generators of [sound/sample.py]

    A shallow embedding of the waveform generators (periodic waves, noise,
    brown noise and the Karplus-Strong generator [Digitar]) together with
    the properties stated about them.

    Numbers.  Python floats are modelled by exact arithmetic: rationals [Q]
    everywhere except for [math.sin], which lives in the real numbers [R].
    Where the rounding of the operations decides a property, the generators
    are modelled a second time on doubles ([_fl]), every operation being
    followed by the rounding to binary64.
    Frames, buffer sizes and list indices are Python ints, modelled by [Z].
    Python exceptions are modelled by an error monad. *)

From Stdlib Require Import ZArith QArith Qround Qabs Qpower Reals Qreals Lra Lia Lqa.
From stdpp Require Import base list.

Local Open Scope Q_scope.

(** ** Exceptions and the error monad *)

Inductive exn : Type :=
  | ZeroDivisionError
  | IndexError
  | OutOfFuel.   (* not a Python exception: a bounded loop ran out of steps *)

Inductive result (A : Type) : Type :=
  | Ok (a : A)
  | Raise (e : exn).
Arguments Ok {A} a.
Arguments Raise {A} e.

#[global] Instance result_ret : MRet result := fun A a => Ok a.
#[global] Instance result_bind : MBind result := fun A B k m =>
  match m with
  | Ok a => k a
  | Raise e => Raise e
  end.

(** ** Python arithmetic *)

(** [x / y] on floats: raises when the divisor is zero. *)
Definition py_div (x y : Q) : result Q :=
  if Qeq_bool y 0 then Raise ZeroDivisionError else Ok (x / y).

(** [x % y] on floats: the remainder takes the sign of the divisor,
    [x - y * floor (x / y)]; raises when the divisor is zero. *)
Definition py_mod (x y : Q) : result Q :=
  if Qeq_bool y 0 then Raise ZeroDivisionError
  else Ok (x - y * inject_Z (Qfloor (x / y))).

(** [a % b] on ints. *)
Definition py_imod (a b : Z) : result Z :=
  if Z.eqb b 0 then Raise ZeroDivisionError else Ok (a mod b)%Z.

(** [int(x)]: truncation towards zero. *)
Definition py_int (x : Q) : Z := Z.quot (Qnum x) (Zpos (Qden x)).

(** [l[i]] on a list: negative indices count from the end. *)
Definition py_index {A : Type} (l : list A) (i : Z) : result A :=
  let n := Z.of_nat (length l) in
  let j := if (i <? 0)%Z then (i + n)%Z else i in
  if ((0 <=? j) && (j <? n))%Z then
    match l !! Z.to_nat j with
    | Some a => Ok a
    | None => Raise IndexError
    end
  else Raise IndexError.

(** [l[i] = v] on a list. *)
Definition py_setitem {A : Type} (l : list A) (i : Z) (v : A) : result (list A) :=
  let n := Z.of_nat (length l) in
  let j := if (i <? 0)%Z then (i + n)%Z else i in
  if ((0 <=? j) && (j <? n))%Z then Ok (<[Z.to_nat j := v]> l)
  else Raise IndexError.

Definition Qlt_bool (x y : Q) : bool := negb (Qle_bool y x).

(** ** Binary64 arithmetic

    Where a property depends on how the operations round, the floats are
    modelled by the rationals that are doubles, every operation being the
    exact one followed by the rounding [rnd] to a double.  [round53] is the
    rounding of IEEE 754 binary64 (to the nearest double, ties to the even
    mantissa) on the normal range: 53 significant bits; overflow and
    subnormal numbers are left out. *)

(** The exponent of a positive rational: [2^e <= a < 2^(e+1)]. *)
Definition binade (a : Q) : Z :=
  let e0 := (Z.log2 (Qnum a) - Z.log2 (Zpos (Qden a)))%Z in
  if Qle_bool (2 ^ e0) a then e0 else (e0 - 1)%Z.

(** The nearest integer, ties to the even one. *)
Definition rne (x : Q) : Z :=
  let m0 := Qfloor x in
  let r := x - inject_Z m0 in
  if Qlt_bool r (1 # 2) then m0
  else if Qlt_bool (1 # 2) r then (m0 + 1)%Z
  else if Z.even m0 then m0 else (m0 + 1)%Z.

(** A positive rational is scaled into [2^52, 2^53), rounded to an integer
    mantissa and scaled back. *)
Definition round53_pos (a : Q) : Q :=
  let s := (52 - binade a)%Z in
  inject_Z (rne (a * 2 ^ s)) / 2 ^ s.

Definition round53 (q : Q) : Q :=
  let q := Qred q in
  Qred (if Qeq_bool q 0 then 0
        else if Qlt_bool q 0 then - round53_pos (- q)
        else round53_pos q).

(** [x / y] on doubles. *)
Definition fl_div (rnd : Q -> Q) (x y : Q) : result Q :=
  if Qeq_bool y 0 then Raise ZeroDivisionError else Ok (rnd (x / y)).

(** [x % y] on doubles: the C function [fmod], which is exact and has the
    sign of [x], then the divisor is added (and the sum rounded) when the
    remainder is not zero and its sign is not that of the divisor. *)
Definition fl_mod (rnd : Q -> Q) (x y : Q) : result Q :=
  if Qeq_bool y 0 then Raise ZeroDivisionError
  else
    let m := x - y * inject_Z (py_int (x / y)) in
    if negb (Qeq_bool m 0) && negb (Bool.eqb (Qlt_bool y 0) (Qlt_bool m 0))
    then Ok (rnd (m + y))
    else Ok m.

(** [1 if x > 1, -1 if x < -1, else x], the two tests of BrownNoise. *)
Definition clamp (x : Q) : Q :=
  if Qlt_bool 1 x then 1 else if Qlt_bool x (-1) then -1 else x.

(** ** The random module *)

(** The state of the generator behind [random.random()]: the sequence of
    numbers it is going to return and the position reached in it. *)
Record Rng : Type := mkRng { draws : nat -> Q; pos : nat }.

Definition random (g : Rng) : Q * Rng :=
  (draws g (pos g), {| draws := draws g; pos := S (pos g) |}).

(** ** Signals *)

(** The [Signal] interface: [amplitude(frame)] returns a value of type [V]
    or raises, and may change the state of the object. *)
Class Signal (S V : Type) : Type :=
  amplitude : S -> Z -> result (V * S).

(** A sequence of calls [self.amplitude(f)] for [f] in [frames], in order:
    the values returned and the final state. *)
Fixpoint run_amplitudes {S V : Type} `{Signal S V} (self : S) (frames : list Z)
  : result (list V * S) :=
  match frames with
  | [] => mret ([], self)
  | f :: frames' =>
      '(v, self1) ← amplitude self f;
      '(vs, self2) ← run_amplitudes self1 frames';
      mret (v :: vs, self2)
  end.

Inductive Duration : Type :=
  | Finite (d : Q)
  | Inf.

Section Samples.

(** Modelled from the spec: [SAMPLE_RATE] is imported from the package's
    [__init__], which is not part of the sources; it is the number of frames
    per second, taken here as a parameter. *)
Variable SAMPLE_RATE : Q.
Hypothesis SAMPLE_RATE_pos : 0 < SAMPLE_RATE.

(** *** class Sample *)

Record Sample : Type := mkSample { frequency : Q; duration : Duration }.

Definition Sample_init (frequency : Q) : Sample :=
  {| frequency := frequency; duration := Inf |}.

Definition period (self : Sample) : result Q :=
  r ← py_div 1 (frequency self); mret (r * SAMPLE_RATE).

(** *** class SineWave *)

Record SineWave : Type := mkSineWave { sine_base : Sample }.

Definition SineWave_init (frequency : Q) : SineWave :=
  {| sine_base := Sample_init frequency |}.

Definition SineWave_amplitude (self : SineWave) (frame : Z) : result (R * SineWave) :=
  p ← period (sine_base self);
  if Qeq_bool p 0 then Raise ZeroDivisionError
  else mret (sin (IZR frame * 2 * PI / Q2R p), self).

#[local] Instance SineWave_Signal : Signal SineWave R := SineWave_amplitude.

(** *** class SquareWave *)

Record SquareWave : Type := mkSquareWave { square_base : Sample; split : Q }.

Definition SquareWave_init (frequency split : Q) : SquareWave :=
  {| square_base := Sample_init frequency; split := split |}.

Definition SquareWave_amplitude (self : SquareWave) (frame : Z) : result (Q * SquareWave) :=
  p ← period (square_base self);
  m ← py_mod (inject_Z frame) p;
  p' ← period (square_base self);
  mret (if Qlt_bool m (p' * split self) then 1 else -1, self).

#[local] Instance SquareWave_Signal : Signal SquareWave Q := SquareWave_amplitude.

(** *** class SawtoothWave *)

Record SawtoothWave : Type := mkSawtoothWave { saw_base : Sample }.

Definition SawtoothWave_init (frequency : Q) : SawtoothWave :=
  {| saw_base := Sample_init frequency |}.

Definition SawtoothWave_amplitude (self : SawtoothWave) (frame : Z) : result (Q * SawtoothWave) :=
  p ← period (saw_base self);
  m ← py_mod (inject_Z frame) p;
  p' ← period (saw_base self);
  d ← py_div m p';
  mret (d * 2 - 1, self).

#[local] Instance SawtoothWave_Signal : Signal SawtoothWave Q := SawtoothWave_amplitude.

(** *** class TriangleWave *)

Record TriangleWave : Type := mkTriangleWave { tri_base : Sample }.

Definition TriangleWave_init (frequency : Q) : TriangleWave :=
  {| tri_base := Sample_init frequency |}.

Definition TriangleWave_amplitude (self : TriangleWave) (frame : Z) : result (Q * TriangleWave) :=
  p ← period (tri_base self);
  pframe ← py_mod (inject_Z frame) p;
  p' ← period (tri_base self);
  let hperiod := p' / 2 in
  let qperiod := hperiod / 2 in
  if Qlt_bool pframe qperiod then
    d ← py_div pframe qperiod; mret (d, self)
  else
    let pframe := pframe - qperiod in
    if Qlt_bool pframe hperiod then
      d ← py_div pframe (- hperiod); mret (d * 2 + 1, self)
    else
      let pframe := pframe - hperiod in
      d ← py_div pframe qperiod; mret (d - 1, self).

#[local] Instance TriangleWave_Signal : Signal TriangleWave Q := TriangleWave_amplitude.

(** The three segments of the triangle wave, as a function of the position
    [m] inside the period [p]. *)
Definition triangle_value (p m : Q) : Q :=
  if Qlt_bool m (p / 2 / 2) then m / (p / 2 / 2)
  else if Qlt_bool (m - p / 2 / 2) (p / 2) then (m - p / 2 / 2) / - (p / 2) * 2 + 1
  else (m - p / 2 / 2 - p / 2) / (p / 2 / 2) - 1.

(** *** class Noise *)

(** A [Noise] object has no attribute of its own besides those of [Sample];
    [noise_rng] is the state of the [random] module that its calls read. *)
Record Noise : Type := mkNoise { noise_base : Sample; noise_rng : Rng }.

Definition Noise_init (g : Rng) : Noise :=
  {| noise_base := Sample_init 0; noise_rng := g |}.

Definition Noise_amplitude (self : Noise) (frame : Z) : result (Q * Noise) :=
  let '(u, g) := random (noise_rng self) in
  mret (u * 2 - 1, {| noise_base := noise_base self; noise_rng := g |}).

#[local] Instance Noise_Signal : Signal Noise Q := Noise_amplitude.

(** *** class BrownNoise *)

Record BrownNoise : Type := mkBrownNoise
  { brown_base : Sample; prev : Q; fac : Q; brown_rng : Rng }.

Definition BrownNoise_init (fac : Q) (g : Rng) : BrownNoise :=
  {| brown_base := Sample_init 0; prev := 0; fac := fac; brown_rng := g |}.

Definition BrownNoise_amplitude (self : BrownNoise) (frame : Z) : result (Q * BrownNoise) :=
  let '(u, g) := random (brown_rng self) in
  let prev1 := prev self + (u * 2 - 1) * fac self in
  let prev2 :=
    if Qlt_bool 1 prev1 then 1
    else if Qlt_bool prev1 (-1) then -1
    else prev1 in
  mret (prev2, {| brown_base := brown_base self; prev := prev2;
                  fac := fac self; brown_rng := g |}).

#[local] Instance BrownNoise_Signal : Signal BrownNoise Q := BrownNoise_amplitude.

(** *** class Digitar *)

Section DigitarDef.

(** The wave source is any object with an [amplitude] method. *)
Context {W : Type} {W_Signal : Signal W Q}.

Record Digitar : Type := mkDigitar
  { digitar_base : Sample;
    wavesrc : W;
    buffersize : Z;
    sample_window : list Q;
    cur_frame : Z;
    phaseinc : Q;
    phase : Q;
    pure : bool }.

Definition set_wavesrc (self : Digitar) (w : W) : Digitar :=
  mkDigitar (digitar_base self) w (buffersize self) (sample_window self)
            (cur_frame self) (phaseinc self) (phase self) (pure self).

Definition set_sample_window (self : Digitar) (l : list Q) : Digitar :=
  mkDigitar (digitar_base self) (wavesrc self) (buffersize self) l
            (cur_frame self) (phaseinc self) (phase self) (pure self).

Definition set_cur_frame (self : Digitar) (f : Z) : Digitar :=
  mkDigitar (digitar_base self) (wavesrc self) (buffersize self) (sample_window self)
            f (phaseinc self) (phase self) (pure self).

Definition set_phase (self : Digitar) (ph : Q) : Digitar :=
  mkDigitar (digitar_base self) (wavesrc self) (buffersize self) (sample_window self)
            (cur_frame self) (phaseinc self) ph (pure self).

Definition set_pure (self : Digitar) (b : bool) : Digitar :=
  mkDigitar (digitar_base self) (wavesrc self) (buffersize self) (sample_window self)
            (cur_frame self) (phaseinc self) (phase self) b.

(** [[src.amplitude(i) for i in range(start, start + n)]], threading the
    state of the source through the calls. *)
Fixpoint sample_range (src : W) (start : Z) (n : nat) : result (list Q * W) :=
  match n with
  | O => mret ([], src)
  | S n' =>
      '(a, src1) ← amplitude src start;
      '(rest, src2) ← sample_range src1 (start + 1)%Z n';
      mret (a :: rest, src2)
  end.

Definition new_buffer (self : Digitar) : result Digitar :=
  '(window, src) ← sample_range (wavesrc self) 0%Z (Z.to_nat (buffersize self));
  let self := set_sample_window (set_wavesrc self src) window in
  let self := set_cur_frame self 0%Z in
  mret (set_phase self 0).

(** [sample_window] and [cur_frame] are [None] until [new_buffer] assigns
    them; they are modelled by [[]] and [0] in between. *)
Definition Digitar_init (frequency : Q) (buffersize : Z) (wavesrc : W) : result Digitar :=
  basefreq ← py_div (SAMPLE_RATE * 1) (inject_Z buffersize);
  phaseinc ← py_div frequency basefreq;
  self ← new_buffer (mkDigitar (Sample_init frequency) wavesrc buffersize [] 0%Z
                               phaseinc 0 true);
  mret (set_pure self false).

Definition get_buffer (self : Digitar) (frame : Z) : result Q :=
  i ← py_imod frame (buffersize self);
  py_index (sample_window self) i.

Definition set_buffer (self : Digitar) (frame : Z) (value : Q) : result Digitar :=
  i ← py_imod frame (buffersize self);
  l ← py_setitem (sample_window self) i value;
  mret (set_sample_window self l).

Definition tick (self : Digitar) : result Digitar :=
  a ← get_buffer self (cur_frame self);
  b ← get_buffer self (cur_frame self + 1)%Z;
  self ← set_buffer self (cur_frame self + 1)%Z (a * (3 # 10) + b * (7 # 10));
  let self := set_cur_frame self (cur_frame self + 1)%Z in
  ph ← py_mod (phase self + phaseinc self) (inject_Z (buffersize self));
  mret (set_phase self ph).

(** [while self.cur_frame < frame: self.tick()], with a bound on the number
    of iterations. *)
Fixpoint seek_loop (fuel : nat) (self : Digitar) (frame : Z) : result Digitar :=
  if (cur_frame self <? frame)%Z then
    match fuel with
    | O => Raise OutOfFuel
    | S fuel' => self ← tick self; seek_loop fuel' self frame
    end
  else mret self.

Definition seek (self : Digitar) (frame : Z) : result Digitar :=
  let self :=
    if (frame <? cur_frame self)%Z then set_cur_frame self 0%Z else self in
  seek_loop (Z.to_nat (frame - cur_frame self)) self frame.

Definition Digitar_amplitude (self : Digitar) (frame : Z) : result (Q * Digitar) :=
  self ← seek self frame;
  s1 ← get_buffer self (py_int (phase self));
  s2 ← get_buffer self (py_int (phase self) + 1)%Z;
  let interp := phase self - inject_Z (py_int (phase self)) in
  mret (interp * s2 + (1 - interp) * s1, self).

#[local] Instance Digitar_Signal : Signal Digitar Q := Digitar_amplitude.

(** *** Vocabulary of the properties of Digitar *)

(** [n] calls of [self.tick()] in a row. *)
Fixpoint ticks (n : nat) (self : Digitar) : result Digitar :=
  match n with
  | O => mret self
  | S n' => self ← tick self; ticks n' self
  end.

(** The invariant of the data model: the phase stays inside the wavetable,
    the frame counter is not negative, the wavetable has [buffersize]
    entries. *)
Definition invariant (self : Digitar) : Prop :=
  (0 <= phase self /\ phase self < inject_Z (buffersize self)) /\
  (0 <= cur_frame self)%Z /\
  Z.of_nat (length (sample_window self)) = buffersize self.

(** What makes the circular indexing of the wavetable well defined. *)
Definition wellformed (self : Digitar) : Prop :=
  (0 < buffersize self)%Z /\
  Z.of_nat (length (sample_window self)) = buffersize self.

(** Every entry of the wavetable lies between [lo] and [hi]. *)
Definition window_within (lo hi : Q) (self : Digitar) : Prop :=
  forall (i : nat) (x : Q), sample_window self !! i = Some x -> lo <= x /\ x <= hi.

(** The attributes that only the constructor sets. *)
Definition same_config (self self' : Digitar) : Prop :=
  digitar_base self' = digitar_base self /\
  wavesrc self' = wavesrc self /\
  buffersize self' = buffersize self /\
  phaseinc self' = phaseinc self /\
  pure self' = pure self.

(** The phase increment fixed by the constructor. *)
Definition phaseinc_spec (self : Digitar) : Prop :=
  phaseinc self ==
  frequency (digitar_base self) / (SAMPLE_RATE / inject_Z (buffersize self)).

(** The states a Digitar can be in: built by the constructor with a positive
    buffer size, then driven by any sequence of operations. *)
Inductive reachable : Digitar -> Prop :=
  | reach_init f n w self :
      (0 < n)%Z -> Digitar_init f n w = Ok self -> reachable self
  | reach_new_buffer self self' :
      reachable self -> new_buffer self = Ok self' -> reachable self'
  | reach_tick self self' :
      reachable self -> tick self = Ok self' -> reachable self'
  | reach_seek self frame self' :
      reachable self -> seek self frame = Ok self' -> reachable self'
  | reach_amplitude self frame v self' :
      reachable self -> Digitar_amplitude self frame = Ok (v, self') ->
      reachable self'.

End DigitarDef.

(** *** The periodic waves and BrownNoise on doubles

    The same methods with every floating-point operation rounded by [rnd];
    a frame, a Python int, is converted to a double by the [%] operator. *)

Section Rounded.

Variable rnd : Q -> Q.

Definition period_fl (self : Sample) : result Q :=
  r ← fl_div rnd 1 (frequency self); mret (rnd (r * SAMPLE_RATE)).

Definition SquareWave_amplitude_fl (self : SquareWave) (frame : Z)
  : result (Q * SquareWave) :=
  p ← period_fl (square_base self);
  m ← fl_mod rnd (rnd (inject_Z frame)) p;
  p' ← period_fl (square_base self);
  mret (if Qlt_bool m (rnd (p' * split self)) then 1 else -1, self).

Definition SawtoothWave_amplitude_fl (self : SawtoothWave) (frame : Z)
  : result (Q * SawtoothWave) :=
  p ← period_fl (saw_base self);
  m ← fl_mod rnd (rnd (inject_Z frame)) p;
  p' ← period_fl (saw_base self);
  d ← fl_div rnd m p';
  mret (rnd (rnd (d * 2) - 1), self).

(** The three segments of the triangle wave on doubles, as a function of
    the position [pframe] inside the period [p]. *)
Definition triangle_value_fl (p pframe : Q) : result Q :=
  let hperiod := rnd (p / 2) in
  let qperiod := rnd (hperiod / 2) in
  if Qlt_bool pframe qperiod then fl_div rnd pframe qperiod
  else
    let pframe := rnd (pframe - qperiod) in
    if Qlt_bool pframe hperiod then
      d ← fl_div rnd pframe (- hperiod); mret (rnd (rnd (d * 2) + 1))
    else
      let pframe := rnd (pframe - hperiod) in
      d ← fl_div rnd pframe qperiod; mret (rnd (d - 1)).

Definition TriangleWave_amplitude_fl (self : TriangleWave) (frame : Z)
  : result (Q * TriangleWave) :=
  p ← period_fl (tri_base self);
  pframe ← fl_mod rnd (rnd (inject_Z frame)) p;
  p' ← period_fl (tri_base self);
  let hperiod := rnd (p' / 2) in
  let qperiod := rnd (hperiod / 2) in
  if Qlt_bool pframe qperiod then
    d ← fl_div rnd pframe qperiod; mret (d, self)
  else
    let pframe := rnd (pframe - qperiod) in
    if Qlt_bool pframe hperiod then
      d ← fl_div rnd pframe (- hperiod); mret (rnd (rnd (d * 2) + 1), self)
    else
      let pframe := rnd (pframe - hperiod) in
      d ← fl_div rnd pframe qperiod; mret (rnd (d - 1), self).

Definition BrownNoise_amplitude_fl (self : BrownNoise) (frame : Z)
  : result (Q * BrownNoise) :=
  let '(u, g) := random (brown_rng self) in
  let prev1 := rnd (prev self + rnd (rnd (rnd (u * 2) - 1) * fac self)) in
  let prev2 :=
    if Qlt_bool 1 prev1 then 1
    else if Qlt_bool prev1 (-1) then -1
    else prev1 in
  mret (prev2, {| brown_base := brown_base self; prev := prev2;
                  fac := fac self; brown_rng := g |}).

End Rounded.

Arguments Digitar W : clear implicits.

(** * Properties *)

(** ** Arithmetic of the model *)

Lemma py_div_ok (x y : Q) : ~ y == 0 -> py_div x y = Ok (x / y).
Proof.
  intros Hy. unfold py_div.
  destruct (Qeq_bool y 0) eqn:E; [|reflexivity].
  apply Qeq_bool_eq in E. contradiction.
Qed.

Lemma py_mod_ok (x y : Q) :
  ~ y == 0 -> py_mod x y = Ok (x - y * inject_Z (Qfloor (x / y))).
Proof.
  intros Hy. unfold py_mod.
  destruct (Qeq_bool y 0) eqn:E; [|reflexivity].
  apply Qeq_bool_eq in E. contradiction.
Qed.

Lemma py_div_zero (x y : Q) : y == 0 -> py_div x y = Raise ZeroDivisionError.
Proof.
  intros Hy. unfold py_div.
  apply Qeq_bool_iff in Hy. now rewrite Hy.
Qed.

(** The floor of [q] is the only integer [z] with [z <= q < z + 1]. *)
Lemma Qfloor_unique (q : Q) (z : Z) :
  inject_Z z <= q -> q < inject_Z (z + 1) -> Qfloor q = z.
Proof.
  intros Hlo Hhi.
  pose proof (Qfloor_le q) as H1. pose proof (Qlt_floor q) as H2.
  assert (Ha : inject_Z z < inject_Z (Qfloor q + 1)) by (eapply Qle_lt_trans; eauto).
  assert (Hb : inject_Z (Qfloor q) < inject_Z (z + 1)) by (eapply Qle_lt_trans; eauto).
  rewrite <- Zlt_Qlt in Ha, Hb. lia.
Qed.

Lemma Qfloor_add_Z (q : Q) (k : Z) : Qfloor (q + inject_Z k) = (Qfloor q + k)%Z.
Proof.
  pose proof (Qfloor_le q) as H1. pose proof (Qlt_floor q) as H2.
  apply Qfloor_unique.
  - rewrite inject_Z_plus. lra.
  - rewrite !inject_Z_plus in *. lra.
Qed.

(** The remainder of a division by a positive number. *)
Lemma Qmod_bounds (x y : Q) :
  0 < y ->
  0 <= x - y * inject_Z (Qfloor (x / y)) /\ x - y * inject_Z (Qfloor (x / y)) < y.
Proof.
  intros Hy.
  pose proof (Qfloor_le (x / y)) as H1. pose proof (Qlt_floor (x / y)) as H2.
  rewrite inject_Z_plus in H2.
  set (k := inject_Z (Qfloor (x / y))) in *.
  assert (Hx : x == (x / y) * y) by (field; lra).
  set (q := x / y) in *.
  split.
  - assert (k * y <= q * y) by (apply Qmult_le_compat_r; lra). lra.
  - assert (q * y < (k + inject_Z 1) * y) by (apply Qmult_lt_compat_r; lra).
    change (inject_Z 1) with 1 in *. lra.
Qed.

Lemma Qlt_bool_iff (x y : Q) : Qlt_bool x y = true <-> x < y.
Proof.
  unfold Qlt_bool. rewrite negb_true_iff.
  split.
  - intros H. apply Qnot_le_lt. intros Hle.
    apply Qle_bool_iff in Hle. congruence.
  - intros H. destruct (Qle_bool y x) eqn:E; [|reflexivity].
    apply Qle_bool_iff in E. lra.
Qed.

Lemma Qlt_bool_false (x y : Q) : Qlt_bool x y = false <-> y <= x.
Proof.
  unfold Qlt_bool. rewrite negb_false_iff. apply Qle_bool_iff.
Qed.

Lemma Qlt_bool_comp (x x' y y' : Q) :
  x == x' -> y == y' -> Qlt_bool x y = Qlt_bool x' y'.
Proof.
  intros Hx Hy.
  destruct (Qlt_bool x y) eqn:E1, (Qlt_bool x' y') eqn:E2; try reflexivity.
  - apply Qlt_bool_iff in E1. apply Qlt_bool_false in E2. lra.
  - apply Qlt_bool_iff in E2. apply Qlt_bool_false in E1. lra.
Qed.

(** ** Periodic waves *)

Lemma period_ok (f : Q) :
  0 < f -> period (Sample_init f) = Ok (1 / f * SAMPLE_RATE) /\ 0 < 1 / f * SAMPLE_RATE.
Proof.
  intros Hf. unfold period. cbn [frequency Sample_init].
  rewrite py_div_ok by lra. split; [reflexivity|].
  apply Qmult_lt_0_compat; [|exact SAMPLE_RATE_pos].
  unfold Qdiv. rewrite Qmult_1_l. now apply Qinv_lt_0_compat.
Qed.

Lemma SquareWave_amplitude_eq (f sp : Q) (frame : Z) (p : Q) :
  period (Sample_init f) = Ok p -> ~ p == 0 ->
  SquareWave_amplitude (SquareWave_init f sp) frame =
  Ok (if Qlt_bool (inject_Z frame - p * inject_Z (Qfloor (inject_Z frame / p))) (p * sp)
      then 1 else -1, SquareWave_init f sp).
Proof.
  intros Hp Hnz. unfold SquareWave_amplitude. cbn [square_base split SquareWave_init].
  rewrite Hp. cbn. rewrite py_mod_ok by assumption. reflexivity.
Qed.

Lemma SawtoothWave_amplitude_eq (f : Q) (frame : Z) (p : Q) :
  period (Sample_init f) = Ok p -> ~ p == 0 ->
  SawtoothWave_amplitude (SawtoothWave_init f) frame =
  Ok ((inject_Z frame - p * inject_Z (Qfloor (inject_Z frame / p))) / p * 2 - 1,
      SawtoothWave_init f).
Proof.
  intros Hp Hnz. unfold SawtoothWave_amplitude. cbn [saw_base SawtoothWave_init].
  rewrite Hp. cbn. rewrite py_mod_ok by assumption. cbn.
  rewrite py_div_ok by assumption. reflexivity.
Qed.

Lemma TriangleWave_amplitude_eq (f : Q) (frame : Z) (p : Q) :
  period (Sample_init f) = Ok p -> ~ p == 0 ->
  TriangleWave_amplitude (TriangleWave_init f) frame =
  Ok (triangle_value p (inject_Z frame - p * inject_Z (Qfloor (inject_Z frame / p))),
      TriangleWave_init f).
Proof.
  intros Hp Hnz. unfold TriangleWave_amplitude, triangle_value.
  cbn [tri_base TriangleWave_init].
  rewrite Hp. cbn. rewrite py_mod_ok by assumption. cbn.
  assert (Hq : ~ p / 2 / 2 == 0).
  { intros E. apply Hnz. assert (H4 : p == p / 2 / 2 * 4) by field.
    rewrite H4, E. reflexivity. }
  assert (Hh : ~ - (p / 2) == 0).
  { intros E. apply Hnz. assert (H2 : p == - (p / 2) * - (2)) by field.
    rewrite H2, E. reflexivity. }
  repeat match goal with
         | |- context [if ?b then _ else _] => destruct b
         end;
    rewrite py_div_ok by assumption; reflexivity.
Qed.

Lemma Qdiv_unit_interval (m p : Q) :
  0 < p -> 0 <= m -> m < p -> 0 <= m / p /\ m / p < 1.
Proof.
  intros Hp Hm Hmp. split.
  - apply Qle_shift_div_l; [assumption|]. lra.
  - apply Qlt_shift_div_r; [assumption|]. lra.
Qed.

Lemma Qdiv_opp_r (m h : Q) : ~ h == 0 -> m / - h == - (m / h).
Proof. intros Hh. field. assumption. Qed.

Lemma SawtoothWave_bounded (p m : Q) :
  0 < p -> 0 <= m -> m < p -> -1 <= m / p * 2 - 1 /\ m / p * 2 - 1 <= 1.
Proof.
  intros Hp Hm Hmp.
  destruct (Qdiv_unit_interval m p Hp Hm Hmp) as [H0 H1]. lra.
Qed.

Lemma triangle_value_bounded (p m : Q) :
  0 < p -> 0 <= m -> m < p ->
  -1 <= triangle_value p m /\ triangle_value p m <= 1.
Proof.
  intros Hp Hm Hmp. unfold triangle_value.
  set (h := p / 2). set (q := h / 2).
  assert (Hh : h == p * (1 # 2)) by reflexivity.
  assert (Hq : q == p * (1 # 4)) by (unfold q; rewrite Hh; field).
  destruct (Qlt_bool m q) eqn:E1.
  - apply Qlt_bool_iff in E1.
    destruct (Qdiv_unit_interval m q) as [H0 H1]; lra.
  - apply Qlt_bool_false in E1.
    destruct (Qlt_bool (m - q) h) eqn:E2.
    + apply Qlt_bool_iff in E2.
      destruct (Qdiv_unit_interval (m - q) h) as [H0 H1]; try lra.
      rewrite Qdiv_opp_r by lra. lra.
    + apply Qlt_bool_false in E2.
      destruct (Qdiv_unit_interval (m - q - h) q) as [H0 H1]; lra.
Qed.

(** C6: the sine, square, sawtooth and triangle waves of a positive
    frequency return, at every frame, an amplitude in the closed interval
    from -1 to 1 (the bound needs neither the range of [split] nor the sign
    of the frame). *)
Theorem periodic_waves_in_range (f sp : Q) (frame : Z) :
  0 < f ->
  (exists v, SineWave_amplitude (SineWave_init f) frame = Ok (v, SineWave_init f) /\
             (-1 <= v <= 1)%R) /\
  (exists v, SquareWave_amplitude (SquareWave_init f sp) frame
               = Ok (v, SquareWave_init f sp) /\ -1 <= v /\ v <= 1) /\
  (exists v, SawtoothWave_amplitude (SawtoothWave_init f) frame
               = Ok (v, SawtoothWave_init f) /\ -1 <= v /\ v <= 1) /\
  (exists v, TriangleWave_amplitude (TriangleWave_init f) frame
               = Ok (v, TriangleWave_init f) /\ -1 <= v /\ v <= 1).
Proof.
  intros Hf. destruct (period_ok f Hf) as [Hp Hpos].
  set (p := 1 / f * SAMPLE_RATE) in *.
  assert (Hnz : ~ p == 0) by lra.
  destruct (Qmod_bounds (inject_Z frame) p Hpos) as [Hm0 Hm1].
  repeat split.
  - unfold SineWave_amplitude. cbn [sine_base SineWave_init]. rewrite Hp. cbn.
    destruct (Qeq_bool p 0) eqn:E; [apply Qeq_bool_eq in E; contradiction|].
    eexists. split; [reflexivity|]. apply SIN_bound.
  - rewrite (SquareWave_amplitude_eq f sp frame p Hp Hnz).
    eexists. split; [reflexivity|].
    destruct (Qlt_bool _ _); lra.
  - rewrite (SawtoothWave_amplitude_eq f frame p Hp Hnz).
    eexists. split; [reflexivity|].
    now apply SawtoothWave_bounded.
  - rewrite (TriangleWave_amplitude_eq f frame p Hp Hnz).
    eexists. split; [reflexivity|].
    now apply triangle_value_bounded.
Qed.

Lemma triangle_value_comp (p m m' : Q) :
  m' == m -> triangle_value p m' == triangle_value p m.
Proof.
  intros Hm. unfold triangle_value.
  rewrite (Qlt_bool_comp m' m (p / 2 / 2) (p / 2 / 2)) by (assumption || reflexivity).
  rewrite (Qlt_bool_comp (m' - p / 2 / 2) (m - p / 2 / 2) (p / 2) (p / 2))
    by (rewrite ?Hm; reflexivity).
  destruct (Qlt_bool m (p / 2 / 2)); [now rewrite Hm|].
  destruct (Qlt_bool (m - p / 2 / 2) (p / 2)); now rewrite Hm.
Qed.

(** Shifting the frame by a whole number of periods does not move the
    position inside the period. *)
Lemma Qmod_shift (p : Q) (P frame : Z) (k : nat) :
  p == inject_Z P -> (0 < P)%Z ->
  inject_Z (frame + Z.of_nat k * P)
    - p * inject_Z (Qfloor (inject_Z (frame + Z.of_nat k * P) / p))
  == inject_Z frame - p * inject_Z (Qfloor (inject_Z frame / p)).
Proof.
  intros Hp HP.
  assert (HP' : 0 < inject_Z P) by (change 0 with (inject_Z 0); now rewrite <- Zlt_Qlt).
  assert (Hx : inject_Z (frame + Z.of_nat k * P) / p
               == inject_Z frame / p + inject_Z (Z.of_nat k)).
  { rewrite inject_Z_plus, inject_Z_mult, Hp. field. lra. }
  rewrite Hx, Qfloor_add_Z, !inject_Z_plus, inject_Z_mult, <- Hp. ring.
Qed.

Lemma Q2R_inject_Z (z : Z) : Q2R (inject_Z z) = IZR z.
Proof. unfold Q2R. cbn [Qnum Qden inject_Z]. rewrite Rinv_1. apply Rmult_1_r. Qed.

(** ** Noise generators *)

(** C10: Noise and BrownNoise are built with frequency 0, for which the
    [period] property raises ZeroDivisionError; their [amplitude] never
    reads it and returns normally at every frame and in every state,
    leaving the frequency as it is. *)
Theorem noise_amplitude_returns :
  (forall g, frequency (noise_base (Noise_init g)) = 0 /\
             period (noise_base (Noise_init g)) = Raise ZeroDivisionError) /\
  (forall fc g, frequency (brown_base (BrownNoise_init fc g)) = 0 /\
                period (brown_base (BrownNoise_init fc g)) = Raise ZeroDivisionError) /\
  (forall (self : Noise) (frame : Z),
      exists v self', Noise_amplitude self frame = Ok (v, self') /\
                      noise_base self' = noise_base self) /\
  (forall (self : BrownNoise) (frame : Z),
      exists v self', BrownNoise_amplitude self frame = Ok (v, self') /\
                      brown_base self' = brown_base self).
Proof.
  repeat split.
  - intros self frame. unfold Noise_amplitude.
    destruct (random (noise_rng self)) as [u g']. do 2 eexists. split; reflexivity.
  - intros self frame. unfold BrownNoise_amplitude.
    destruct (random (brown_rng self)) as [u g']. do 2 eexists. split; reflexivity.
Qed.

(** ** Digitar *)

Lemma bind_Ok_inv {A B : Type} (m : result A) (k : A -> result B) (b : B) :
  m ≫= k = Ok b -> exists a, m = Ok a /\ k a = Ok b.
Proof. destruct m as [a|e]; cbn; intros H; [eauto | discriminate]. Qed.

Lemma py_imod_ok (a b : Z) : (b <> 0)%Z -> py_imod a b = Ok (a mod b)%Z.
Proof.
  intros Hb. unfold py_imod. destruct (Z.eqb_spec b 0); [contradiction|reflexivity].
Qed.

Lemma py_index_ok {A : Type} (l : list A) (i : Z) :
  (0 <= i < Z.of_nat (length l))%Z ->
  exists x, l !! Z.to_nat i = Some x /\ py_index l i = Ok x.
Proof.
  intros Hi. unfold py_index.
  destruct (Z.ltb_spec i 0); [lia|].
  destruct (Z.leb_spec 0 i); [|lia].
  destruct (Z.ltb_spec i (Z.of_nat (length l))); [|lia]. cbn.
  destruct (lookup_lt_is_Some_2 l (Z.to_nat i)) as [x Hx]; [lia|].
  exists x. now rewrite Hx.
Qed.

Lemma py_setitem_ok {A : Type} (l : list A) (i : Z) (v : A) :
  (0 <= i < Z.of_nat (length l))%Z ->
  py_setitem l i v = Ok (<[Z.to_nat i := v]> l).
Proof.
  intros Hi. unfold py_setitem.
  destruct (Z.ltb_spec i 0); [lia|].
  destruct (Z.leb_spec 0 i); [|lia].
  destruct (Z.ltb_spec i (Z.of_nat (length l))); [|lia]. reflexivity.
Qed.

(** The position inside the period is the only remainder in [0, p) that
    differs from the frame by a whole number of periods. *)
Lemma Qmod_unique (x p r : Q) (k : Z) :
  0 < p -> x == r + p * inject_Z k -> 0 <= r -> r < p ->
  x - p * inject_Z (Qfloor (x / p)) == r.
Proof.
  intros Hp Hx H0 H1.
  destruct (Qdiv_unit_interval r p Hp H0 H1) as [Ha Hb].
  assert (Hdiv : x / p == r / p + inject_Z k) by (rewrite Hx; field; lra).
  rewrite Hdiv, Qfloor_add_Z.
  rewrite (Qfloor_unique (r / p) 0) by (cbn; assumption).
  rewrite Hx, Z.add_0_l. ring.
Qed.

Section DigitarProps.

Context {W : Type} {W_Signal : Signal W Q}.

Implicit Types self : @Digitar W.

Lemma invariant_wellformed self : invariant self -> wellformed self.
Proof.
  intros [[H0 H1] [_ Hlen]]. split; [|assumption].
  assert (H : inject_Z 0 < inject_Z (buffersize self))
    by (change (inject_Z 0) with 0; lra).
  now rewrite <- Zlt_Qlt in H.
Qed.

Lemma get_buffer_ok self (frame : Z) :
  wellformed self ->
  exists x, sample_window self !! Z.to_nat (frame mod buffersize self) = Some x /\
            get_buffer self frame = Ok x.
Proof.
  intros [Hn Hlen]. unfold get_buffer. rewrite py_imod_ok by lia. cbn.
  apply py_index_ok. rewrite Hlen. apply Z.mod_pos_bound. assumption.
Qed.

Lemma set_buffer_ok self (frame : Z) (value : Q) :
  wellformed self ->
  set_buffer self frame value =
  Ok (set_sample_window self
        (<[Z.to_nat (frame mod buffersize self) := value]> (sample_window self))).
Proof.
  intros [Hn Hlen]. unfold set_buffer. rewrite py_imod_ok by lia. cbn.
  rewrite py_setitem_ok; [reflexivity|].
  rewrite Hlen. apply Z.mod_pos_bound. assumption.
Qed.

(** The effect of one tick on a well-formed state, field by field. *)
Lemma tick_ok self :
  wellformed self ->
  let n := buffersize self in
  exists a b,
    sample_window self !! Z.to_nat (cur_frame self mod n) = Some a /\
    sample_window self !! Z.to_nat ((cur_frame self + 1) mod n) = Some b /\
    tick self =
    Ok (mkDigitar (digitar_base self) (wavesrc self) n
          (<[Z.to_nat ((cur_frame self + 1) mod n) := a * (3 # 10) + b * (7 # 10)]>
             (sample_window self))
          (cur_frame self + 1) (phaseinc self)
          (phase self + phaseinc self
           - inject_Z n * inject_Z (Qfloor ((phase self + phaseinc self) / inject_Z n)))
          (pure self)).
Proof.
  intros Hwf n.
  destruct (get_buffer_ok self (cur_frame self) Hwf) as (a & Ha & Hga).
  destruct (get_buffer_ok self (cur_frame self + 1) Hwf) as (b & Hb & Hgb).
  exists a, b. do 2 (split; [assumption|]).
  unfold tick. rewrite Hga. cbn [mbind result_bind]. rewrite Hgb.
  cbn [mbind result_bind]. rewrite set_buffer_ok by assumption.
  cbn [mbind result_bind]. cbn [set_sample_window set_cur_frame phase phaseinc buffersize cur_frame].
  rewrite py_mod_ok; [reflexivity|].
  destruct Hwf as [Hn _]. intros E.
  assert (H : inject_Z 0 < inject_Z (buffersize self)) by now rewrite <- Zlt_Qlt.
  change (inject_Z 0) with 0 in H. lra.
Qed.

Lemma tick_cur_frame self self' :
  tick self = Ok self' -> cur_frame self' = (cur_frame self + 1)%Z.
Proof.
  unfold tick. intros H.
  apply bind_Ok_inv in H as (a & _ & H).
  apply bind_Ok_inv in H as (b & _ & H).
  apply bind_Ok_inv in H as (s1 & Hs1 & H).
  apply bind_Ok_inv in H as (ph & _ & H).
  injection H as <-. cbn.
  unfold set_buffer in Hs1.
  apply bind_Ok_inv in Hs1 as (i & _ & Hs1).
  apply bind_Ok_inv in Hs1 as (l & _ & Hs1).
  injection Hs1 as <-. reflexivity.
Qed.

Lemma same_config_refl self : same_config self self.
Proof. repeat split. Qed.

Lemma same_config_trans self1 self2 self3 :
  same_config self1 self2 -> same_config self2 self3 -> same_config self1 self3.
Proof. unfold same_config. intuition congruence. Qed.

(** One tick never fails on a well-formed state; it keeps it well formed
    and brings the phase inside the wavetable. *)
Lemma tick_wellformed self :
  wellformed self ->
  exists self',
    tick self = Ok self' /\ wellformed self' /\ same_config self self' /\
    cur_frame self' = (cur_frame self + 1)%Z /\
    0 <= phase self' /\ phase self' < inject_Z (buffersize self').
Proof.
  intros Hwf. destruct (tick_ok self Hwf) as (a & b & _ & _ & Htick).
  eexists. split; [exact Htick|].
  destruct Hwf as [Hn Hlen].
  assert (HnQ : 0 < inject_Z (buffersize self)).
  { change 0 with (inject_Z 0). now rewrite <- Zlt_Qlt. }
  unfold wellformed, same_config.
  cbn [phase buffersize cur_frame sample_window digitar_base wavesrc phaseinc pure].
  rewrite length_insert.
  pose proof (Qmod_bounds (phase self + phaseinc self) _ HnQ) as [H0 H1].
  repeat split; assumption.
Qed.

Lemma tick_invariant self self' :
  invariant self -> tick self = Ok self' -> invariant self'.
Proof.
  intros Hinv Htick.
  destruct (tick_wellformed self (invariant_wellformed self Hinv))
    as (s & Hs & [Hn Hlen] & _ & Hcur & H0 & H1).
  rewrite Htick in Hs. injection Hs as <-.
  destruct Hinv as (_ & Hc & _).
  repeat split; try assumption. lia.
Qed.

Lemma ticks_wellformed (n : nat) :
  forall self,
    wellformed self ->
    exists self',
      ticks n self = Ok self' /\ wellformed self' /\ same_config self self' /\
      cur_frame self' = (cur_frame self + Z.of_nat n)%Z /\
      (invariant self -> invariant self').
Proof.
  induction n as [|n IH]; intros self Hwf.
  - exists self. split; [reflexivity|]. split; [assumption|].
    split; [apply same_config_refl|]. split; [cbn; lia|]. trivial.
  - destruct (tick_wellformed self Hwf) as (s1 & Htick & Hwf1 & Hcfg1 & Hcur1 & _).
    destruct (IH s1 Hwf1) as (s2 & Hticks & Hwf2 & Hcfg2 & Hcur2 & Hinv2).
    exists s2. cbn [ticks]. rewrite Htick. cbn [mbind result_bind].
    split; [exact Hticks|]. split; [exact Hwf2|].
    split; [eapply same_config_trans; eassumption|].
    split; [lia|].
    intros Hinv. apply Hinv2. eapply tick_invariant; eassumption.
Qed.

(** The loop of [seek] is a run of ticks, and the bound on its iterations is
    never reached. *)
Lemma seek_loop_ticks (fuel : nat) :
  forall self (frame : Z),
    (Z.to_nat (frame - cur_frame self) <= fuel)%nat ->
    seek_loop fuel self frame = ticks (Z.to_nat (frame - cur_frame self)) self.
Proof.
  induction fuel as [|fuel IH]; intros self frame Hfuel.
  - cbn [seek_loop]. destruct (Z.ltb_spec (cur_frame self) frame); [lia|].
    replace (Z.to_nat (frame - cur_frame self)) with O by lia. reflexivity.
  - cbn [seek_loop]. destruct (Z.ltb_spec (cur_frame self) frame) as [Hlt|Hge].
    + replace (Z.to_nat (frame - cur_frame self))
        with (S (Z.to_nat (frame - (cur_frame self + 1)))) in * by lia.
      cbn [ticks]. destruct (tick self) as [s1|e] eqn:Htick; [|reflexivity].
      cbn [mbind result_bind]. apply tick_cur_frame in Htick.
      rewrite <- Htick. apply IH. rewrite Htick. lia.
    + replace (Z.to_nat (frame - cur_frame self)) with O by lia. reflexivity.
Qed.

Lemma seek_ticks self (frame : Z) :
  seek self frame =
  if (frame <? cur_frame self)%Z
  then ticks (Z.to_nat frame) (set_cur_frame self 0)
  else ticks (Z.to_nat (frame - cur_frame self)) self.
Proof.
  unfold seek. rewrite seek_loop_ticks by lia.
  destruct (frame <? cur_frame self)%Z; [|reflexivity].
  cbn [cur_frame set_cur_frame]. now rewrite Z.sub_0_r.
Qed.

(** [seek] never fails on a well-formed state: it stops at the frame asked
    for, or at 0 when that frame is negative and behind the current one. *)
Lemma seek_wellformed self (frame : Z) :
  wellformed self ->
  exists self',
    seek self frame = Ok self' /\ wellformed self' /\ same_config self self' /\
    cur_frame self' =
      Z.max frame (if (frame <? cur_frame self)%Z then 0 else cur_frame self) /\
    (invariant self -> invariant self').
Proof.
  intros Hwf. rewrite seek_ticks.
  destruct (Z.ltb_spec frame (cur_frame self)) as [Hlt|Hge].
  - destruct (ticks_wellformed (Z.to_nat frame) (set_cur_frame self 0))
      as (s' & Hticks & Hwf' & Hcfg & Hcur & Hinv); [exact Hwf|].
    exists s'. split; [exact Hticks|]. split; [exact Hwf'|].
    split; [exact Hcfg|]. cbn [cur_frame set_cur_frame] in Hcur.
    split; [lia|].
    intros (Hph & _ & Hlen). apply Hinv.
    split; [exact Hph|]. split; [cbn; lia | exact Hlen].
  - destruct (ticks_wellformed (Z.to_nat (frame - cur_frame self)) self Hwf)
      as (s' & Hticks & Hwf' & Hcfg & Hcur & Hinv).
    exists s'. split; [exact Hticks|]. split; [exact Hwf'|].
    split; [exact Hcfg|]. split; [lia | exact Hinv].
Qed.

Lemma sample_range_length (n : nat) :
  forall (src : W) (start : Z) (l : list Q) (src' : W),
    sample_range src start n = Ok (l, src') -> length l = n.
Proof.
  induction n as [|n IH]; intros src start l src' H; cbn [sample_range] in H.
  - injection H as <- _. reflexivity.
  - apply bind_Ok_inv in H as ([a src1] & _ & H).
    apply bind_Ok_inv in H as ([rest src2] & Hrest & H).
    injection H as <- _. cbn. f_equal. eapply IH. eassumption.
Qed.

Lemma new_buffer_invariant self self' :
  (0 < buffersize self)%Z -> new_buffer self = Ok self' ->
  invariant self' /\
  digitar_base self' = digitar_base self /\ buffersize self' = buffersize self /\
  phaseinc self' = phaseinc self /\ pure self' = pure self.
Proof.
  intros Hn H. unfold new_buffer in H.
  apply bind_Ok_inv in H as ([window src] & Hrange & H).
  injection H as <-. apply sample_range_length in Hrange.
  unfold invariant.
  cbn [phase buffersize cur_frame sample_window set_phase set_cur_frame
       set_sample_window set_wavesrc digitar_base phaseinc pure].
  assert (HnQ : inject_Z 0 < inject_Z (buffersize self)) by now rewrite <- Zlt_Qlt.
  change (inject_Z 0) with 0 in HnQ.
  repeat split; try assumption; try lra; lia.
Qed.

Lemma Digitar_init_invariant (f : Q) (n : Z) (w : W) self :
  (0 < n)%Z -> Digitar_init f n w = Ok self ->
  invariant self /\ phaseinc_spec self /\
  buffersize self = n /\ frequency (digitar_base self) = f.
Proof.
  intros Hn H. unfold Digitar_init in H.
  apply bind_Ok_inv in H as (basefreq & Hbase & H).
  apply bind_Ok_inv in H as (pinc & Hpinc & H).
  apply bind_Ok_inv in H as (s1 & Hnew & H).
  injection H as <-.
  apply new_buffer_invariant in Hnew as (Hinv & Hb & Hsz & Hpi & _); [|exact Hn].
  cbn [digitar_base buffersize phaseinc] in Hb, Hsz, Hpi.
  unfold py_div in Hbase, Hpinc.
  destruct (Qeq_bool (inject_Z n) 0); [discriminate|]. injection Hbase as <-.
  destruct (Qeq_bool (SAMPLE_RATE * 1 / inject_Z n) 0); [discriminate|].
  injection Hpinc as <-.
  split; [exact Hinv|].
  unfold phaseinc_spec. cbn [digitar_base buffersize phaseinc set_pure].
  rewrite Hb, Hsz, Hpi. cbn [frequency Sample_init].
  split; [now rewrite Qmult_1_r|]. split; reflexivity.
Qed.

Lemma phaseinc_spec_config self self' :
  digitar_base self' = digitar_base self -> buffersize self' = buffersize self ->
  phaseinc self' = phaseinc self -> phaseinc_spec self -> phaseinc_spec self'.
Proof. unfold phaseinc_spec. intros -> -> ->. trivial. Qed.

Lemma tick_same_config self self' : tick self = Ok self' -> same_config self self'.
Proof.
  unfold tick. intros H.
  apply bind_Ok_inv in H as (a & _ & H).
  apply bind_Ok_inv in H as (b & _ & H).
  apply bind_Ok_inv in H as (s1 & Hs1 & H).
  apply bind_Ok_inv in H as (ph & _ & H).
  injection H as <-.
  unfold set_buffer in Hs1.
  apply bind_Ok_inv in Hs1 as (i & _ & Hs1).
  apply bind_Ok_inv in Hs1 as (l & _ & Hs1).
  injection Hs1 as <-. repeat split.
Qed.

Lemma ticks_same_config (n : nat) :
  forall self self',
    ticks n self = Ok self' ->
    same_config self self' /\ cur_frame self' = (cur_frame self + Z.of_nat n)%Z.
Proof.
  induction n as [|n IH]; intros self self' H; cbn [ticks] in H.
  - injection H as <-. split; [apply same_config_refl | lia].
  - apply bind_Ok_inv in H as (s1 & Htick & H).
    apply IH in H as [Hcfg Hcur].
    pose proof (tick_cur_frame _ _ Htick). apply tick_same_config in Htick.
    split; [eapply same_config_trans; eassumption | lia].
Qed.

Lemma seek_same_config self (frame : Z) self' :
  seek self frame = Ok self' ->
  same_config self self' /\
  cur_frame self' =
    Z.max frame (if (frame <? cur_frame self)%Z then 0 else cur_frame self).
Proof.
  rewrite seek_ticks. intros H.
  destruct (Z.ltb_spec frame (cur_frame self)) as [Hlt|Hge];
    apply ticks_same_config in H as [Hcfg Hcur].
  - cbn [cur_frame set_cur_frame] in Hcur. split; [exact Hcfg | lia].
  - split; [exact Hcfg | lia].
Qed.

Lemma Digitar_amplitude_seek self (frame : Z) (v : Q) self' :
  Digitar_amplitude self frame = Ok (v, self') -> seek self frame = Ok self'.
Proof.
  unfold Digitar_amplitude. intros H.
  apply bind_Ok_inv in H as (s1 & Hseek & H).
  apply bind_Ok_inv in H as (x1 & _ & H).
  apply bind_Ok_inv in H as (x2 & _ & H).
  injection H as _ <-. exact Hseek.
Qed.

Lemma py_int_floor (x : Q) : 0 <= x -> py_int x = Qfloor x.
Proof.
  destruct x as [num den]. unfold Qle, py_int, Qfloor. cbn. intros H.
  apply Z.quot_div_nonneg; lia.
Qed.

(** [amplitude] on a state that satisfies the invariant: the state it leaves
    is the one [seek] reaches, and the value is the interpolation between
    the two entries around the phase. *)
Lemma Digitar_amplitude_ok self (frame : Z) :
  invariant self ->
  exists self' x1 x2,
    seek self frame = Ok self' /\ invariant self' /\ same_config self self' /\
    sample_window self'
      !! Z.to_nat (Qfloor (phase self') mod buffersize self') = Some x1 /\
    sample_window self'
      !! Z.to_nat ((Qfloor (phase self') + 1) mod buffersize self') = Some x2 /\
    Digitar_amplitude self frame =
    Ok ((phase self' - inject_Z (Qfloor (phase self'))) * x2
        + (1 - (phase self' - inject_Z (Qfloor (phase self')))) * x1, self').
Proof.
  intros Hinv.
  destruct (seek_wellformed self frame (invariant_wellformed _ Hinv))
    as (s' & Hseek & Hwf' & Hcfg & _ & Hinv').
  specialize (Hinv' Hinv).
  destruct (get_buffer_ok s' (Qfloor (phase s')) Hwf') as (x1 & Hx1 & Hg1).
  destruct (get_buffer_ok s' (Qfloor (phase s') + 1) Hwf') as (x2 & Hx2 & Hg2).
  exists s', x1, x2. do 5 (split; [assumption|]).
  unfold Digitar_amplitude. rewrite Hseek. cbn [mbind result_bind].
  rewrite py_int_floor by apply Hinv'.
  rewrite Hg1. cbn [mbind result_bind]. rewrite Hg2. reflexivity.
Qed.

Lemma reachable_invariant self :
  reachable self -> invariant self /\ phaseinc_spec self.
Proof.
  induction 1 as [f n w s Hn Hinit | s s' _ [Hinv Hpi] Hnew | s s' _ [Hinv Hpi] Htick
                 | s frame s' _ [Hinv Hpi] Hseek | s frame v s' _ [Hinv Hpi] Hamp].
  - apply Digitar_init_invariant in Hinit as (Hinv & Hpi & _); [tauto | exact Hn].
  - apply new_buffer_invariant in Hnew as (Hinv' & Hb & Hsz & Hp & _);
      [|apply (invariant_wellformed _ Hinv)].
    split; [exact Hinv' | eapply phaseinc_spec_config; eassumption].
  - split; [eapply tick_invariant; eassumption|].
    apply tick_same_config in Htick as (Hb & _ & Hsz & Hp & _).
    eapply phaseinc_spec_config; eassumption.
  - destruct (seek_wellformed s frame (invariant_wellformed _ Hinv))
      as (s1 & Hs1 & _ & (Hb & _ & Hsz & Hp & _) & _ & Hinv').
    rewrite Hseek in Hs1. injection Hs1 as <-.
    split; [auto | eapply phaseinc_spec_config; eassumption].
  - apply Digitar_amplitude_seek in Hamp.
    destruct (seek_wellformed s frame (invariant_wellformed _ Hinv))
      as (s1 & Hs1 & _ & (Hb & _ & Hsz & Hp & _) & _ & Hinv').
    rewrite Hamp in Hs1. injection Hs1 as <-.
    split; [auto | eapply phaseinc_spec_config; eassumption].
Qed.

(** C2: a Digitar built with a positive buffer size satisfies the invariant
    (phase inside the wavetable, frame counter not negative, wavetable of
    [buffersize] entries) after construction and after every sequence of
    new_buffer, tick, seek and amplitude; on such a state tick, seek and
    amplitude return and leave a state that satisfies it again.  Positive
    frequencies and non-negative frames are the special case the data model
    names; the proof needs neither. *)
Theorem digitar_invariant_preserved self :
  reachable self ->
  invariant self /\
  (exists self', tick self = Ok self' /\ invariant self') /\
  (forall frame, exists self', seek self frame = Ok self' /\ invariant self') /\
  (forall frame, exists v self',
      Digitar_amplitude self frame = Ok (v, self') /\ invariant self') /\
  (forall self', new_buffer self = Ok self' -> invariant self').
Proof.
  intros Hreach. destruct (reachable_invariant self Hreach) as [Hinv _].
  pose proof (invariant_wellformed _ Hinv) as Hwf.
  split; [exact Hinv|]. split; [|split; [|split]].
  - destruct (tick_wellformed self Hwf) as (s' & Htick & _).
    exists s'. split; [exact Htick|]. eapply tick_invariant; eassumption.
  - intros frame.
    destruct (seek_wellformed self frame Hwf) as (s' & Hseek & _ & _ & _ & Hinv').
    exists s'. auto.
  - intros frame.
    destruct (Digitar_amplitude_ok self frame Hinv)
      as (s' & x1 & x2 & _ & Hinv' & _ & _ & _ & Hamp).
    eexists _, s'. split; [exact Hamp | exact Hinv'].
  - intros s' Hnew. apply new_buffer_invariant in Hnew; [tauto | apply Hwf].
Qed.

(** C3: asking a Digitar for the amplitude of a frame that is not behind the
    current one, twice in a row, gives the same value twice and the same
    state after each call: the first call stops at that frame, so the seek
    of the second call does no tick and changes nothing; on a well-formed
    state the calls do return. *)
Theorem digitar_amplitude_idempotent self (frame : Z) :
  (cur_frame self <= frame)%Z ->
  (forall v self',
      Digitar_amplitude self frame = Ok (v, self') ->
      cur_frame self' = frame /\ seek self' frame = Ok self' /\
      Digitar_amplitude self' frame = Ok (v, self')) /\
  (wellformed self -> exists v self', Digitar_amplitude self frame = Ok (v, self')).
Proof.
  intros Hle. split.
  - intros v s' Hamp.
    pose proof (Digitar_amplitude_seek _ _ _ _ Hamp) as Hseek.
    apply seek_same_config in Hseek as [_ Hcur].
    destruct (Z.ltb_spec frame (cur_frame self)); [lia|].
    assert (Hseek' : seek s' frame = Ok s').
    { rewrite seek_ticks. destruct (Z.ltb_spec frame (cur_frame s')); [lia|].
      replace (Z.to_nat (frame - cur_frame s')) with O by lia. reflexivity. }
    split; [lia|]. split; [exact Hseek'|].
    unfold Digitar_amplitude in *. rewrite Hseek'. cbn [mbind result_bind].
    apply bind_Ok_inv in Hamp as (s1 & _ & Hamp).
    apply bind_Ok_inv in Hamp as (x1 & Hx1 & Hamp).
    apply bind_Ok_inv in Hamp as (x2 & Hx2 & Hamp).
    injection Hamp as Hv Hs. subst s1.
    rewrite Hx1. cbn [mbind result_bind]. rewrite Hx2. cbn [mbind result_bind].
    now rewrite Hv.
  - intros Hwf.
    destruct (seek_wellformed self frame Hwf) as (s' & Hseek & Hwf' & _).
    destruct (get_buffer_ok s' (py_int (phase s')) Hwf') as (x1 & _ & Hg1).
    destruct (get_buffer_ok s' (py_int (phase s') + 1) Hwf') as (x2 & _ & Hg2).
    do 2 eexists. unfold Digitar_amplitude. rewrite Hseek. cbn [mbind result_bind].
    rewrite Hg1. cbn [mbind result_bind]. rewrite Hg2. reflexivity.
Qed.

(** What the constructor leaves: the first entry of the wavetable is the
    first value drawn from the wave source, and both counters are 0. *)
Lemma Digitar_init_window (f : Q) (n : Z) (w : W) self :
  (0 < n)%Z -> Digitar_init f n w = Ok self ->
  exists a0 w1 rest,
    amplitude w 0%Z = Ok (a0, w1) /\ sample_window self = a0 :: rest /\
    phase self = 0 /\ cur_frame self = 0%Z.
Proof.
  intros Hn H. unfold Digitar_init in H.
  apply bind_Ok_inv in H as (basefreq & _ & H).
  apply bind_Ok_inv in H as (pinc & _ & H).
  apply bind_Ok_inv in H as (s1 & Hnew & H).
  injection H as <-. unfold new_buffer in Hnew.
  apply bind_Ok_inv in Hnew as ([window src] & Hrange & Hnew).
  injection Hnew as <-. cbn [buffersize wavesrc] in Hrange.
  destruct (Z.to_nat n) as [|k] eqn:Hk; [lia|].
  cbn [sample_range] in Hrange.
  apply bind_Ok_inv in Hrange as ([a0 w1] & Ha0 & Hrange).
  apply bind_Ok_inv in Hrange as ([rest w2] & _ & Hrange).
  injection Hrange as <- _.
  exists a0, w1, rest. repeat split. exact Ha0.
Qed.

(** C4: on a state that satisfies the invariant, [amplitude(frame)] seeks
    and then returns (1-w) * wavetable[floor(phase) mod buffersize]
    + w * wavetable[(floor(phase)+1) mod buffersize], with w the fractional
    part of the phase, read in the state the seek reached; right after
    construction [amplitude(0)] is the first value drawn from the wave
    source, which is the entry 0 of the wavetable. *)
Theorem digitar_amplitude_interpolates :
  (forall self (frame : Z),
      invariant self ->
      exists self' x1 x2 v,
        seek self frame = Ok self' /\
        Digitar_amplitude self frame = Ok (v, self') /\
        sample_window self'
          !! Z.to_nat (Qfloor (phase self') mod buffersize self') = Some x1 /\
        sample_window self'
          !! Z.to_nat ((Qfloor (phase self') + 1) mod buffersize self') = Some x2 /\
        v == (1 - (phase self' - inject_Z (Qfloor (phase self')))) * x1
             + (phase self' - inject_Z (Qfloor (phase self'))) * x2) /\
  (forall (f : Q) (n : Z) (w : W) self,
      (0 < n)%Z -> Digitar_init f n w = Ok self ->
      exists a0 w1 v,
        amplitude w 0%Z = Ok (a0, w1) /\
        sample_window self !! 0%nat = Some a0 /\
        Digitar_amplitude self 0 = Ok (v, self) /\ v == a0).
Proof.
  split.
  - intros self frame Hinv.
    destruct (Digitar_amplitude_ok self frame Hinv)
      as (s' & x1 & x2 & Hseek & _ & _ & Hx1 & Hx2 & Hamp).
    exists s', x1, x2. eexists. do 4 (split; [eassumption|]). ring.
  - intros f n w self Hn Hinit.
    destruct (Digitar_init_window f n w self Hn Hinit)
      as (a0 & w1 & rest & Ha0 & Hwin & Hph & Hcur).
    apply Digitar_init_invariant in Hinit as (Hinv & _ & Hsz & _); [|exact Hn].
    destruct (Digitar_amplitude_ok self 0 Hinv)
      as (s' & x1 & x2 & Hseek & _ & _ & Hx1 & Hx2 & Hamp).
    assert (Hs' : s' = self).
    { rewrite seek_ticks, Hcur in Hseek.
      change (Ok self = Ok s') in Hseek. congruence. }
    subst s'. rewrite Hph in Hx1, Hamp. change (Qfloor 0) with 0%Z in Hx1, Hamp.
    rewrite Z.mod_0_l in Hx1 by lia. rewrite Hwin in Hx1. cbn in Hx1.
    injection Hx1 as <-.
    exists a0, w1. eexists. split; [exact Ha0|]. split; [now rewrite Hwin|].
    split; [exact Hamp|]. change (inject_Z 0) with 0. ring.
Qed.

(** C5: one tick of a Digitar writes 0.3 * wavetable[cur_frame mod
    buffersize] + 0.7 * wavetable[(cur_frame+1) mod buffersize] at the index
    (cur_frame+1) mod buffersize and leaves every other entry as it was,
    adds 1 to cur_frame, replaces the phase by (phase + phaseinc) mod
    buffersize, where phaseinc is frequency / (SAMPLE_RATE / buffersize),
    and changes nothing else. *)
Theorem digitar_tick_transition self :
  reachable self ->
  let n := buffersize self in
  let i0 := Z.to_nat (cur_frame self mod n) in
  let i1 := Z.to_nat ((cur_frame self + 1) mod n) in
  exists a b v self',
    sample_window self !! i0 = Some a /\
    sample_window self !! i1 = Some b /\
    tick self = Ok self' /\
    v == (3 # 10) * a + (7 # 10) * b /\
    sample_window self' = <[i1 := v]> (sample_window self) /\
    sample_window self' !! i1 = Some v /\
    (forall j : nat, j <> i1 -> sample_window self' !! j = sample_window self !! j) /\
    cur_frame self' = (cur_frame self + 1)%Z /\
    py_mod (phase self + phaseinc self) (inject_Z n) = Ok (phase self') /\
    (0 <= phase self' /\ phase self' < inject_Z n) /\
    (exists k : Z, phase self + phaseinc self == phase self' + inject_Z k * inject_Z n) /\
    phaseinc self == frequency (digitar_base self) / (SAMPLE_RATE / inject_Z n) /\
    same_config self self'.
Proof.
  intros Hreach n i0 i1.
  destruct (reachable_invariant self Hreach) as [Hinv Hpi].
  pose proof (invariant_wellformed _ Hinv) as Hwf.
  destruct (tick_ok self Hwf) as (a & b & Ha & Hb & Htick).
  fold n i0 i1 in Ha, Hb, Htick.
  assert (HnQ : ~ inject_Z n == 0).
  { destruct Hwf as [Hn _]. intros E.
    assert (H : inject_Z 0 < inject_Z n) by now rewrite <- Zlt_Qlt.
    change (inject_Z 0) with 0 in H. lra. }
  assert (HnQ' : 0 < inject_Z n).
  { destruct Hwf as [Hn _]. change 0 with (inject_Z 0). now rewrite <- Zlt_Qlt. }
  exists a, b, (a * (3 # 10) + b * (7 # 10)). eexists.
  do 2 (split; [assumption|]). split; [exact Htick|].
  cbn [sample_window cur_frame phase].
  split; [ring|]. split; [reflexivity|].
  split; [apply list_lookup_insert_eq; apply lookup_lt_Some in Hb; exact Hb|].
  split; [intros j Hj; apply list_lookup_insert_ne; congruence|].
  split; [reflexivity|].
  split; [apply py_mod_ok; exact HnQ|].
  split; [apply Qmod_bounds; exact HnQ'|].
  split; [exists (Qfloor ((phase self + phaseinc self) / inject_Z n)); ring|].
  split; [exact Hpi|]. repeat split.
Qed.

(** C9 (amended): tick, seek and amplitude never sample the wave source
    (new_buffer, which the constructor runs, is the operation that does):
    they leave it as it is, and a seek to a frame behind the current one
    only puts cur_frame back to 0: phase and wavetable are kept, and the
    ticks up to the target frame run on them; on a well-formed state the
    seek returns. *)
Theorem digitar_seek_backward_keeps_wavetable self (target : Z) :
  (target < cur_frame self)%Z ->
  (exists self0,
      cur_frame self0 = 0%Z /\ phase self0 = phase self /\
      sample_window self0 = sample_window self /\ same_config self self0 /\
      seek self target = ticks (Z.to_nat target) self0) /\
  (wellformed self ->
   exists self', seek self target = Ok self' /\ cur_frame self' = Z.max target 0) /\
  (forall self', seek self target = Ok self' -> wavesrc self' = wavesrc self) /\
  (forall self', tick self = Ok self' -> wavesrc self' = wavesrc self) /\
  (forall frame v self',
      Digitar_amplitude self frame = Ok (v, self') -> wavesrc self' = wavesrc self).
Proof.
  intros Hlt. split; [|split; [|split; [|split]]].
  - exists (set_cur_frame self 0). do 3 (split; [reflexivity|]).
    split; [repeat split|].
    rewrite seek_ticks. destruct (Z.ltb_spec target (cur_frame self)); [reflexivity|lia].
  - intros Hwf.
    destruct (seek_wellformed self target Hwf) as (s' & Hseek & _ & _ & Hcur & _).
    exists s'. split; [exact Hseek|].
    destruct (Z.ltb_spec target (cur_frame self)); [exact Hcur|lia].
  - intros s' Hseek. apply seek_same_config in Hseek as [Hcfg _]. apply Hcfg.
  - intros s' Htick. apply tick_same_config in Htick. apply Htick.
  - intros frame v s' Hamp. apply Digitar_amplitude_seek in Hamp.
    apply seek_same_config in Hamp as [Hcfg _]. apply Hcfg.
Qed.

(** ** Digitar: construction, circular buffer and composition *)

Lemma py_index_nil {A : Type} (i : Z) : py_index (@nil A) i = Raise IndexError.
Proof.
  unfold py_index. change (Z.of_nat (length (@nil A))) with 0%Z.
  destruct (Z.ltb_spec i 0) as [H|H].
  - destruct (Z.leb_spec 0 (i + 0)); [lia|]. reflexivity.
  - destruct (Z.leb_spec 0 i); [|reflexivity].
    destruct (Z.ltb_spec i 0); [lia|]. reflexivity.
Qed.

Lemma get_buffer_empty self (frame : Z) :
  sample_window self = [] -> buffersize self <> 0%Z ->
  get_buffer self frame = Raise IndexError.
Proof.
  intros Hwin Hn. unfold get_buffer. rewrite py_imod_ok by assumption.
  cbn [mbind result_bind]. rewrite Hwin. apply py_index_nil.
Qed.

Lemma tick_empty self :
  sample_window self = [] -> buffersize self <> 0%Z -> tick self = Raise IndexError.
Proof.
  intros Hwin Hn. unfold tick.
  now rewrite (get_buffer_empty self (cur_frame self) Hwin Hn).
Qed.

Lemma Digitar_amplitude_empty self (frame : Z) :
  sample_window self = [] -> buffersize self <> 0%Z ->
  Digitar_amplitude self frame = Raise IndexError.
Proof.
  intros Hwin Hn.
  assert (Hstop : forall (s : @Digitar W) (j : nat),
            sample_window s = [] -> buffersize s <> 0%Z ->
            ticks j s ≫= (fun s1 =>
              s1' ← get_buffer s1 (py_int (phase s1));
              s2' ← get_buffer s1 (py_int (phase s1) + 1)%Z;
              mret ((phase s1 - inject_Z (py_int (phase s1))) * s2'
                    + (1 - (phase s1 - inject_Z (py_int (phase s1)))) * s1', s1))
            = Raise IndexError).
  { intros s j Hs Hs'. destruct j as [|j]; cbn [ticks mbind result_bind mret result_ret].
    - now rewrite (get_buffer_empty s (py_int (phase s)) Hs Hs').
    - now rewrite (tick_empty s Hs Hs'). }
  unfold Digitar_amplitude. rewrite seek_ticks.
  destruct (frame <? cur_frame self)%Z; apply Hstop; assumption.
Qed.

(** X10: the constructor raises ZeroDivisionError for a buffer size of 0.
    With a negative buffer size it returns a Digitar whose wavetable is empty
    and whose wave source was never sampled; every tick and every call of
    amplitude on it raises IndexError. *)
Theorem digitar_degenerate_buffersize (f : Q) (n : Z) (w : W) :
  Digitar_init f 0 w = Raise ZeroDivisionError /\
  ((n < 0)%Z ->
   exists self,
     Digitar_init f n w = Ok self /\
     sample_window self = [] /\ wavesrc self = w /\ buffersize self = n /\
     tick self = Raise IndexError /\
     forall frame, Digitar_amplitude self frame = Raise IndexError).
Proof.
  split; [reflexivity|].
  intros Hn.
  assert (HnQ : inject_Z n < 0) by (change 0 with (inject_Z 0); now rewrite <- Zlt_Qlt).
  assert (Hbase : ~ SAMPLE_RATE * 1 / inject_Z n == 0).
  { intros E.
    assert (H : SAMPLE_RATE == SAMPLE_RATE * 1 / inject_Z n * inject_Z n)
      by (field; lra).
    rewrite E in H. lra. }
  unfold Digitar_init.
  rewrite py_div_ok by lra. cbn [mbind result_bind].
  rewrite py_div_ok by assumption. cbn [mbind result_bind].
  unfold new_buffer. cbn [buffersize wavesrc].
  replace (Z.to_nat n) with O by lia. cbn [sample_range mbind result_bind mret result_ret].
  eexists. split; [reflexivity|].
  do 3 (split; [reflexivity|]).
  split; [apply tick_empty; [reflexivity | cbn; lia]|].
  intros frame. apply Digitar_amplitude_empty; [reflexivity | cbn; lia].
Qed.

(** The frames [start, start + 1, ..., start + n - 1]. *)
Lemma frames_from_succ (start : Z) (n : nat) :
  map (fun i => (start + Z.of_nat i)%Z) (seq 0 (S n))
  = start :: map (fun i => (start + 1 + Z.of_nat i)%Z) (seq 0 n).
Proof.
  cbn [seq map]. rewrite Z.add_0_r. f_equal.
  rewrite <- seq_shift, map_map. apply map_ext. intros i. lia.
Qed.

(** Filling the wavetable is the run of calls [amplitude(start)], ...,
    [amplitude(start + n - 1)] on the wave source. *)
Lemma sample_range_run (n : nat) :
  forall (src : W) (start : Z),
    sample_range src start n
    = run_amplitudes src (map (fun i => (start + Z.of_nat i)%Z) (seq 0 n)).
Proof.
  induction n as [|n IH]; intros src start; [reflexivity|].
  rewrite frames_from_succ. cbn [sample_range run_amplitudes].
  destruct (amplitude src start) as [[a src1]|e]; [|reflexivity].
  cbn [mbind result_bind]. now rewrite IH.
Qed.

Lemma Digitar_init_run (f : Q) (n : Z) (w : W) :
  (0 < n)%Z ->
  Digitar_init f n w =
  match run_amplitudes w (map (fun i => (0 + Z.of_nat i)%Z) (seq 0 (Z.to_nat n))) with
  | Ok (window, w') =>
      Ok (mkDigitar (Sample_init f) w' n window 0
            (f / (SAMPLE_RATE * 1 / inject_Z n)) 0 false)
  | Raise e => Raise e
  end.
Proof.
  intros Hn.
  assert (HnQ : 0 < inject_Z n) by (change 0 with (inject_Z 0); now rewrite <- Zlt_Qlt).
  assert (Hbase : ~ SAMPLE_RATE * 1 / inject_Z n == 0).
  { intros E.
    assert (H : SAMPLE_RATE == SAMPLE_RATE * 1 / inject_Z n * inject_Z n)
      by (field; lra).
    rewrite E in H. lra. }
  unfold Digitar_init.
  rewrite py_div_ok by lra. cbn [mbind result_bind].
  rewrite py_div_ok by assumption. cbn [mbind result_bind].
  unfold new_buffer. cbn [buffersize wavesrc]. rewrite sample_range_run.
  destruct (run_amplitudes w _) as [[window w']|e]; reflexivity.
Qed.

(** X11: with a positive buffer size the constructor makes exactly the calls
    amplitude(0), ..., amplitude(buffersize - 1) on the wave source, in this
    order: it returns a Digitar whose wavetable holds the values returned and
    whose wave source is in the state the calls left, with both counters at
    0, or it raises what the wave source raised. *)
Theorem digitar_init_samples_in_order (f : Q) (n : Z) (w : W) :
  (0 < n)%Z ->
  let frames := map (fun i => (0 + Z.of_nat i)%Z) (seq 0 (Z.to_nat n)) in
  (forall window w',
      run_amplitudes w frames = Ok (window, w') ->
      length window = Z.to_nat n /\
      Digitar_init f n w =
      Ok (mkDigitar (Sample_init f) w' n window 0
            (f / (SAMPLE_RATE * 1 / inject_Z n)) 0 false)) /\
  (forall e, run_amplitudes w frames = Raise e -> Digitar_init f n w = Raise e).
Proof.
  intros Hn frames. pose proof (Digitar_init_run f n w Hn) as Hinit.
  fold frames in Hinit. split.
  - intros window w' Hrun. rewrite Hrun in Hinit. split; [|exact Hinit].
    unfold frames in Hrun. rewrite <- sample_range_run in Hrun.
    eapply sample_range_length. exact Hrun.
  - intros e Hrun. now rewrite Hrun in Hinit.
Qed.

(** ** Digitar: the filter is a convex combination *)

Lemma tick_within (lo hi : Q) self self' :
  wellformed self -> window_within lo hi self -> tick self = Ok self' ->
  window_within lo hi self'.
Proof.
  intros Hwf Hin Htick.
  destruct (tick_ok self Hwf) as (a & b & Ha & Hb & Heq).
  rewrite Htick in Heq. injection Heq as ->.
  apply Hin in Ha as [Ha0 Ha1]. apply Hin in Hb as [Hb0 Hb1].
  intros i x Hx. cbn [sample_window] in Hx.
  apply list_lookup_insert_Some in Hx as [(_ & <- & _)|[_ Hx]].
  - split; lra.
  - now apply Hin in Hx.
Qed.

Lemma ticks_within (lo hi : Q) (n : nat) :
  forall self self',
    wellformed self -> window_within lo hi self -> ticks n self = Ok self' ->
    window_within lo hi self'.
Proof.
  induction n as [|n IH]; intros self self' Hwf Hin H; cbn [ticks] in H.
  - now injection H as <-.
  - apply bind_Ok_inv in H as (s1 & Htick & H).
    destruct (tick_wellformed self Hwf) as (s1' & Htick' & Hwf1 & _).
    rewrite Htick in Htick'. injection Htick' as <-.
    apply (IH s1 self' Hwf1 (tick_within lo hi self s1 Hwf Hin Htick) H).
Qed.

Lemma seek_within (lo hi : Q) self (frame : Z) self' :
  wellformed self -> window_within lo hi self -> seek self frame = Ok self' ->
  window_within lo hi self'.
Proof.
  intros Hwf Hin H. rewrite seek_ticks in H.
  destruct (frame <? cur_frame self)%Z; eapply ticks_within; try exact H; assumption.
Qed.

(** On a state that satisfies the invariant and whose wavetable lies between
    [lo] and [hi], [amplitude] returns a value between [lo] and [hi] and
    leaves such a state. *)
Lemma Digitar_amplitude_within (lo hi : Q) self (frame : Z) :
  invariant self -> window_within lo hi self ->
  exists v self',
    Digitar_amplitude self frame = Ok (v, self') /\
    (lo <= v /\ v <= hi) /\
    invariant self' /\ window_within lo hi self' /\ same_config self self'.
Proof.
  intros Hinv Hin.
  destruct (Digitar_amplitude_ok self frame Hinv)
    as (s' & x1 & x2 & Hseek & Hinv' & Hcfg & Hx1 & Hx2 & Hamp).
  pose proof (seek_within lo hi self frame s' (invariant_wellformed _ Hinv) Hin Hseek)
    as Hin'.
  eexists _, s'. split; [exact Hamp|].
  split; [|split; [exact Hinv'|split; [exact Hin' | exact Hcfg]]].
  apply Hin' in Hx1 as [Hx10 Hx11]. apply Hin' in Hx2 as [Hx20 Hx21].
  pose proof (Qfloor_le (phase s')) as Hf0.
  pose proof (Qlt_floor (phase s')) as Hf1.
  rewrite inject_Z_plus in Hf1. change (inject_Z 1) with 1 in Hf1.
  set (t := phase s' - inject_Z (Qfloor (phase s'))) in *.
  assert (Ht0 : 0 <= t) by (unfold t; lra).
  assert (Ht1 : 0 <= 1 - t) by (unfold t; lra).
  assert (P1 : 0 <= t * (x2 - lo)) by (apply Qmult_le_0_compat; lra).
  assert (P2 : 0 <= (1 - t) * (x1 - lo)) by (apply Qmult_le_0_compat; lra).
  assert (P3 : 0 <= t * (hi - x2)) by (apply Qmult_le_0_compat; lra).
  assert (P4 : 0 <= (1 - t) * (hi - x1)) by (apply Qmult_le_0_compat; lra).
  split; lra.
Qed.

Lemma Digitar_run_within (lo hi : Q) (frames : list Z) :
  forall self,
    invariant self -> window_within lo hi self ->
    exists outs self',
      @run_amplitudes _ _ Digitar_amplitude self frames = Ok (outs, self') /\
      length outs = length frames /\
      (forall i v, outs !! i = Some v -> lo <= v /\ v <= hi) /\
      invariant self' /\ window_within lo hi self' /\ same_config self self'.
Proof.
  induction frames as [|frame frames IH]; intros self Hinv Hin.
  - exists [], self. split; [reflexivity|]. split; [reflexivity|].
    split; [intros i v H; destruct i; discriminate|].
    split; [assumption|]. split; [assumption | apply same_config_refl].
  - destruct (Digitar_amplitude_within lo hi self frame Hinv Hin)
      as (v & s1 & Hamp & Hv & Hinv1 & Hin1 & Hcfg1).
    destruct (IH s1 Hinv1 Hin1) as (outs & s2 & Hrun & Hlen & Hout & Hinv2 & Hin2 & Hcfg2).
    exists (v :: outs), s2. cbn [run_amplitudes].
    change (amplitude self frame) with (Digitar_amplitude self frame).
    rewrite Hamp. cbn [mbind result_bind]. rewrite Hrun.
    split; [reflexivity|]. split; [cbn; now rewrite Hlen|].
    split; [|split; [assumption|split; [assumption|]]].
    + intros i x H. destruct i as [|i]; cbn in H.
      * injection H as <-. exact Hv.
      * now apply Hout in H.
    + eapply same_config_trans; eassumption.
Qed.

Lemma ticks_add (m n : nat) :
  forall self, ticks (m + n) self = ticks m self ≫= ticks n.
Proof.
  induction m as [|m IH]; intros self; [reflexivity|].
  cbn [Nat.add ticks]. destruct (tick self) as [s1|e]; [|reflexivity].
  cbn [mbind result_bind]. apply IH.
Qed.

(** X14: forward seeks compose.  Once a seek to a frame [a] that is not
    behind the current one has returned, a seek to a later frame [b] does
    what the direct seek to [b] does, and so does a call of amplitude:
    asking for intermediate frames does not change what later frames
    return. *)
Theorem digitar_forward_seeks_compose self (a b : Z) self1 :
  (cur_frame self <= a)%Z -> (a <= b)%Z -> seek self a = Ok self1 ->
  cur_frame self1 = a /\
  seek self1 b = seek self b /\
  Digitar_amplitude self1 b = Digitar_amplitude self b.
Proof.
  intros Ha Hb Hseek.
  pose proof (seek_same_config _ _ _ Hseek) as [_ Hcur].
  destruct (Z.ltb_spec a (cur_frame self)); [lia|].
  assert (Hcur1 : cur_frame self1 = a) by lia.
  assert (Heq : seek self1 b = seek self b).
  { rewrite seek_ticks in Hseek. rewrite !seek_ticks.
    destruct (Z.ltb_spec a (cur_frame self)); [lia|].
    destruct (Z.ltb_spec b (cur_frame self1)); [lia|].
    destruct (Z.ltb_spec b (cur_frame self)); [lia|].
    replace (Z.to_nat (b - cur_frame self))
      with (Z.to_nat (a - cur_frame self) + Z.to_nat (b - cur_frame self1))%nat by lia.
    rewrite ticks_add, Hseek. reflexivity. }
  split; [exact Hcur1|]. split; [exact Heq|].
  unfold Digitar_amplitude. now rewrite Heq.
Qed.

(** ** Digitar: the circular buffer *)

Lemma get_buffer_lookup self (frame : Z) (x : Q) :
  wellformed self ->
  sample_window self !! Z.to_nat (frame mod buffersize self) = Some x ->
  get_buffer self frame = Ok x.
Proof.
  intros Hwf Hx. destruct (get_buffer_ok self frame Hwf) as (x' & Hx' & Hget).
  congruence.
Qed.

(** X16: the wavetable is addressed modulo its size.  On a well-formed
    Digitar, reading at a frame shifted by any number [k] of buffer sizes
    (also a negative one) reads the same entry; writing a value at a frame
    and reading it back, at that frame or at a shifted one, returns the
    value; the entries at the other indices are not touched. *)
Theorem digitar_circular_buffer self (frame other k : Z) (value : Q) :
  wellformed self ->
  get_buffer self (frame + k * buffersize self) = get_buffer self frame /\
  exists self',
    set_buffer self frame value = Ok self' /\
    wellformed self' /\
    get_buffer self' frame = Ok value /\
    get_buffer self' (frame + k * buffersize self) = Ok value /\
    ((other mod buffersize self)%Z <> (frame mod buffersize self)%Z ->
     get_buffer self' other = get_buffer self other).
Proof.
  intros Hwf. pose proof Hwf as [Hn Hlen].
  assert (Hshift : forall s : @Digitar W,
             buffersize s = buffersize self ->
             get_buffer s (frame + k * buffersize self) = get_buffer s frame).
  { intros s Hs. unfold get_buffer. rewrite Hs, !py_imod_ok by lia.
    now rewrite Z_mod_plus_full. }
  split; [now apply Hshift|].
  eexists. split; [apply set_buffer_ok; exact Hwf|].
  set (self' := set_sample_window self _).
  assert (Hwf' : wellformed self').
  { split; [exact Hn|]. unfold self'. cbn [sample_window set_sample_window buffersize].
    now rewrite length_insert. }
  assert (Hrange : (0 <= frame mod buffersize self < buffersize self)%Z)
    by (apply Z.mod_pos_bound; exact Hn).
  assert (Hget : get_buffer self' frame = Ok value).
  { apply get_buffer_lookup; [exact Hwf'|].
    unfold self'. cbn [sample_window set_sample_window buffersize].
    apply list_lookup_insert_eq. lia. }
  split; [exact Hwf'|]. split; [exact Hget|].
  split; [rewrite (Hshift self' eq_refl); exact Hget|].
  intros Hne.
  assert (Hrange' : (0 <= other mod buffersize self < buffersize self)%Z)
    by (apply Z.mod_pos_bound; exact Hn).
  destruct (get_buffer_ok self other Hwf) as (x & Hx & Hgx). rewrite Hgx.
  apply get_buffer_lookup; [exact Hwf'|].
  unfold self'. cbn [sample_window set_sample_window buffersize].
  rewrite list_lookup_insert_ne; [exact Hx|]. lia.
Qed.

Lemma sample_range_stateless (n : nat) :
  (forall (src : W) (i : Z) (v : Q) (src' : W),
      amplitude src i = Ok (v, src') -> src' = src) ->
  forall (src : W) (start : Z) (l : list Q) (src' : W),
    sample_range src start n = Ok (l, src') -> src' = src.
Proof.
  intros Hpure. induction n as [|n IH]; intros src start l src' H;
    cbn [sample_range] in H.
  - now injection H as _ <-.
  - apply bind_Ok_inv in H as ([a src1] & Ha & H).
    apply bind_Ok_inv in H as ([rest src2] & Hrest & H).
    injection H as _ <-. apply Hpure in Ha. apply IH in Hrest. congruence.
Qed.

(** X17: when the amplitude of the wave source never changes the state of
    the source, [new_buffer] undoes every tick: whatever seeks and calls of
    amplitude a Digitar went through since the constructor, [new_buffer]
    brings back the very state the constructor returned. *)
Theorem digitar_new_buffer_restores (f : Q) (n : Z) (w : W) self0 self :
  (forall (src : W) (i : Z) (v : Q) (src' : W),
      amplitude src i = Ok (v, src') -> src' = src) ->
  Digitar_init f n w = Ok self0 ->
  same_config self0 self ->
  new_buffer self = Ok self0 /\
  (forall frame self', seek self frame = Ok self' -> new_buffer self' = Ok self0) /\
  (forall frame v self',
      Digitar_amplitude self frame = Ok (v, self') -> new_buffer self' = Ok self0).
Proof.
  intros Hpure Hinit Hcfg.
  assert (Hnew : forall s : @Digitar W, same_config self0 s -> new_buffer s = Ok self0).
  { intros s (Hb & Hw & Hsz & Hpi & Hpu).
    unfold Digitar_init in Hinit.
    apply bind_Ok_inv in Hinit as (basefreq & _ & Hinit).
    apply bind_Ok_inv in Hinit as (pinc & _ & Hinit).
    apply bind_Ok_inv in Hinit as (s1 & Hnew & Hinit).
    injection Hinit as <-. unfold new_buffer in Hnew.
    apply bind_Ok_inv in Hnew as ([window src] & Hrange & Hnew).
    injection Hnew as <-. cbn [buffersize wavesrc] in Hrange.
    pose proof (sample_range_stateless _ Hpure _ _ _ _ Hrange) as ->.
    cbn [digitar_base wavesrc buffersize phaseinc pure set_pure set_phase
         set_cur_frame set_sample_window set_wavesrc] in Hb, Hw, Hsz, Hpi, Hpu.
    unfold new_buffer. rewrite Hw, Hsz, Hrange. cbn [mbind result_bind mret result_ret].
    destruct s; cbn in *. subst. reflexivity. }
  split; [now apply Hnew|]. split.
  - intros frame s' Hseek. apply Hnew.
    apply seek_same_config in Hseek as [Hcfg' _].
    eapply same_config_trans; eassumption.
  - intros frame v s' Hamp. apply Digitar_amplitude_seek in Hamp.
    apply Hnew. apply seek_same_config in Hamp as [Hcfg' _].
    eapply same_config_trans; eassumption.
Qed.

(** A run of ticks only writes the entries it passes over. *)
Lemma ticks_untouched (j : nat) :
  forall self self' (i : nat),
    wellformed self -> ticks j self = Ok self' ->
    (forall t, (1 <= t <= Z.of_nat j)%Z ->
               Z.to_nat ((cur_frame self + t) mod buffersize self) <> i) ->
    sample_window self' !! i = sample_window self !! i.
Proof.
  induction j as [|j IH]; intros self self' i Hwf H Hfree; cbn [ticks] in H.
  - now injection H as <-.
  - apply bind_Ok_inv in H as (s1 & Htick & H).
    destruct (tick_wellformed self Hwf) as (s1' & Htick' & Hwf1 & Hcfg & Hcur & _).
    rewrite Htick in Htick'. injection Htick' as <-.
    destruct (tick_ok self Hwf) as (a & b & _ & _ & Heq).
    rewrite Htick in Heq. injection Heq as Hs1.
    destruct Hcfg as (_ & _ & Hsz & _).
    rewrite (IH s1 self' i Hwf1 H).
    + rewrite Hs1. cbn [sample_window]. apply list_lookup_insert_ne.
      apply (Hfree 1%Z). lia.
    + intros t Ht. rewrite Hcur, Hsz.
      replace (cur_frame self + 1 + t)%Z with (cur_frame self + (t + 1))%Z by lia.
      apply Hfree. lia.
Qed.

(** X21: the filter sweeps the wavetable one entry per tick.  After the
    constructor and a seek to a frame [k] with [0 <= k < buffersize], the
    entry 0 and the entries after index [k] still hold the values drawn from
    the wave source. *)
Theorem digitar_filter_sweep (f : Q) (n : Z) (w : W) self (k : Z) self' (i : Z) :
  (0 < n)%Z -> Digitar_init f n w = Ok self ->
  (0 <= k < n)%Z -> seek self k = Ok self' ->
  (i = 0 \/ k < i)%Z ->
  sample_window self' !! Z.to_nat i = sample_window self !! Z.to_nat i.
Proof.
  intros Hn Hinit Hk Hseek Hi.
  destruct (Digitar_init_window f n w self Hn Hinit) as (_ & _ & _ & _ & _ & _ & Hcur).
  destruct (Digitar_init_invariant f n w self Hn Hinit) as (Hinv & _ & Hsz & _).
  pose proof (invariant_wellformed _ Hinv) as Hwf.
  rewrite seek_ticks, Hcur in Hseek.
  destruct (Z.ltb_spec k 0); [lia|]. rewrite Z.sub_0_r in Hseek.
  apply (ticks_untouched (Z.to_nat k) self self' (Z.to_nat i) Hwf Hseek).
  intros t Ht. rewrite Hcur, Hsz, Z.add_0_l, Z.mod_small by lia. lia.
Qed.

End DigitarProps.

(** * Further properties of the generators *)

(** ** Periodic waves: edge cases and shape *)

Lemma period_zero (f : Q) :
  f == 0 -> period (Sample_init f) = Raise ZeroDivisionError.
Proof.
  intros Hf. unfold period. cbn [frequency Sample_init].
  now rewrite py_div_zero.
Qed.

(** X1: with a frequency equal to zero the [period] property raises
    ZeroDivisionError, and so does the amplitude of each of the four
    periodic waves, at every frame. *)
Theorem periodic_waves_zero_frequency (f sp : Q) (frame : Z) :
  f == 0 ->
  period (Sample_init f) = Raise ZeroDivisionError /\
  SineWave_amplitude (SineWave_init f) frame = Raise ZeroDivisionError /\
  SquareWave_amplitude (SquareWave_init f sp) frame = Raise ZeroDivisionError /\
  SawtoothWave_amplitude (SawtoothWave_init f) frame = Raise ZeroDivisionError /\
  TriangleWave_amplitude (TriangleWave_init f) frame = Raise ZeroDivisionError.
Proof.
  intros Hf. pose proof (period_zero f Hf) as Hp.
  split; [exact Hp|].
  unfold SineWave_amplitude, SquareWave_amplitude, SawtoothWave_amplitude,
    TriangleWave_amplitude.
  cbn [sine_base SineWave_init square_base SquareWave_init saw_base
       SawtoothWave_init tri_base TriangleWave_init].
  rewrite Hp. repeat split.
Qed.

(** The position inside the period of a frame that lies in the first
    period is the frame itself. *)
Lemma Qmod_small (x p : Q) :
  0 <= x -> x < p -> x - p * inject_Z (Qfloor (x / p)) == x.
Proof.
  intros H0 H1.
  assert (Hp : 0 < p) by lra.
  destruct (Qdiv_unit_interval x p Hp H0 H1) as [Ha Hb].
  rewrite (Qfloor_unique (x / p) 0) by (cbn; assumption).
  change (inject_Z 0) with 0. ring.
Qed.

(** X2: a square wave of positive frequency only takes the values 1 and -1;
    it starts at 1 when [split] is positive, is constantly 1 when [split] is
    at least 1 and constantly -1 when [split] is at most 0. *)
Theorem square_wave_duty_cycle (f sp : Q) (frame : Z) :
  0 < f ->
  exists v v0,
    SquareWave_amplitude (SquareWave_init f sp) frame
      = Ok (v, SquareWave_init f sp) /\
    SquareWave_amplitude (SquareWave_init f sp) 0
      = Ok (v0, SquareWave_init f sp) /\
    (v = 1 \/ v = -1) /\
    (0 < sp -> v0 = 1) /\
    (1 <= sp -> v = 1) /\
    (sp <= 0 -> v = -1).
Proof.
  intros Hf. destruct (period_ok f Hf) as [Hp Hpos].
  set (p := 1 / f * SAMPLE_RATE) in *.
  assert (Hnz : ~ p == 0) by lra.
  rewrite !(SquareWave_amplitude_eq f sp _ p Hp Hnz).
  destruct (Qmod_bounds (inject_Z frame) p Hpos) as [Hm0 Hm1].
  set (m := inject_Z frame - p * inject_Z (Qfloor (inject_Z frame / p))) in *.
  do 2 eexists. do 2 (split; [reflexivity|]).
  split; [destruct (Qlt_bool m (p * sp)); auto|].
  split; [|split].
  - intros Hsp.
    assert (Hlt : inject_Z 0 - p * inject_Z (Qfloor (inject_Z 0 / p)) < p * sp).
    { rewrite Qmod_small by (change (inject_Z 0) with 0; lra).
      change (inject_Z 0) with 0. apply Qmult_lt_0_compat; assumption. }
    apply Qlt_bool_iff in Hlt. now rewrite Hlt.
  - intros Hsp.
    assert (Hlt : m < p * sp).
    { apply Qlt_le_trans with (p * 1); [lra|].
      apply Qmult_le_l; assumption. }
    apply Qlt_bool_iff in Hlt. now rewrite Hlt.
  - intros Hsp.
    assert (Hge : p * sp <= m).
    { apply Qle_trans with 0; [|assumption].
      assert (H : p * sp <= p * 0) by (apply Qmult_le_l; assumption). lra. }
    apply Qlt_bool_false in Hge. now rewrite Hge.
Qed.


Lemma Q2R_pos (p : Q) : 0 < p -> (0 < Q2R p)%R.
Proof.
  intros Hp. apply Qlt_Rlt in Hp.
  rewrite RMicromega.Q2R_0 in Hp. exact Hp.
Qed.

(** X6: a sine wave of positive frequency is 0 at frame 0 and odd in the
    frame: the amplitude at [-frame] is the opposite of the amplitude at
    [frame]. *)
Theorem sine_wave_odd (f : Q) (frame : Z) :
  0 < f ->
  exists v,
    SineWave_amplitude (SineWave_init f) 0 = Ok (0%R, SineWave_init f) /\
    SineWave_amplitude (SineWave_init f) frame = Ok (v, SineWave_init f) /\
    SineWave_amplitude (SineWave_init f) (- frame) = Ok ((- v)%R, SineWave_init f).
Proof.
  intros Hf. destruct (period_ok f Hf) as [Hp Hpos].
  set (p := 1 / f * SAMPLE_RATE) in *.
  pose proof (Q2R_pos p Hpos) as HpR.
  unfold SineWave_amplitude. cbn [sine_base SineWave_init]. rewrite Hp.
  cbn [mbind result_bind].
  destruct (Qeq_bool p 0) eqn:E; [apply Qeq_bool_eq in E; lra|].
  eexists. split; [|split; [reflexivity|]].
  - cbn [mret result_ret]. do 2 f_equal.
    replace (0 * 2 * PI / Q2R p)%R with 0%R
      by (field; apply Rgt_not_eq; exact HpR).
    apply sin_0.
  - cbn [mret result_ret]. do 2 f_equal.
    rewrite opp_IZR.
    replace (- IZR frame * 2 * PI / Q2R p)%R with (- (IZR frame * 2 * PI / Q2R p))%R
      by (field; apply Rgt_not_eq; exact HpR).
    apply sin_neg.
Qed.

(** ** Noise generators: consumption of the random draws *)

Lemma Noise_run (frames : list Z) :
  forall self : Noise,
    exists outs self',
      run_amplitudes self frames = Ok (outs, self') /\
      length outs = length frames /\
      noise_base self' = noise_base self /\
      draws (noise_rng self') = draws (noise_rng self) /\
      pos (noise_rng self') = (pos (noise_rng self) + length frames)%nat /\
      (forall i v, outs !! i = Some v ->
                   v = draws (noise_rng self) (pos (noise_rng self) + i)%nat * 2 - 1).
Proof.
  induction frames as [|frame frames IH]; intros self.
  - exists [], self. split; [reflexivity|]. split; [reflexivity|].
    split; [reflexivity|]. split; [reflexivity|]. split; [cbn; lia|].
    intros i v H. destruct i; discriminate.
  - set (self1 := {| noise_base := noise_base self;
                     noise_rng := {| draws := draws (noise_rng self);
                                     pos := S (pos (noise_rng self)) |} |}).
    destruct (IH self1) as (outs & self2 & Hrun & Hlen & Hbase & Hdr & Hpos & Hout).
    exists (draws (noise_rng self) (pos (noise_rng self)) * 2 - 1 :: outs), self2.
    cbn [run_amplitudes].
    change (amplitude self frame) with (Noise_amplitude self frame).
    unfold Noise_amplitude, random. cbn [mbind result_bind mret result_ret].
    fold self1. rewrite Hrun. cbn [mbind result_bind mret result_ret].
    split; [reflexivity|]. split; [cbn; now rewrite Hlen|].
    split; [exact Hbase|]. split; [exact Hdr|].
    split; [rewrite Hpos; cbn; lia|].
    intros i v H. destruct i as [|i]; cbn in H.
    + injection H as <-. now rewrite Nat.add_0_r.
    + apply Hout in H. cbn in H. rewrite H. now rewrite Nat.add_succ_r.
Qed.

(** X8: a run of calls of [Noise.amplitude] always returns; the i-th value
    is 2*u - 1 for the i-th pending draw u of the random generator, whatever
    the frames asked for, so that it lies in [-1, 1) when the draws lie in
    [0, 1); the run consumes exactly one draw per call. *)
Theorem noise_consumes_one_draw_per_call (g : Rng) (frames : list Z) :
  exists (outs : list Q) self',
    run_amplitudes (Noise_init g) frames = Ok (outs, self') /\
    length outs = length frames /\
    draws (noise_rng self') = draws g /\
    pos (noise_rng self') = (pos g + length frames)%nat /\
    (forall i v, outs !! i = Some v -> v = draws g (pos g + i)%nat * 2 - 1) /\
    ((forall n, 0 <= draws g n /\ draws g n < 1) ->
     forall i v, outs !! i = Some v -> -1 <= v /\ v < 1).
Proof.
  destruct (Noise_run frames (Noise_init g))
    as (outs & self' & Hrun & Hlen & _ & Hdr & Hpos & Hout).
  cbn [noise_rng Noise_init] in *.
  exists outs, self'. do 5 (split; [assumption|]).
  intros Hdraws i v Hv. apply Hout in Hv. subst v.
  destruct (Hdraws (pos g + i)%nat). split; lra.
Qed.


(** ** Digitar on its default wave source *)

(** X18: a Digitar built on white noise (the default wave source) with a
    positive buffer size draws exactly [buffersize] numbers from the random
    generator, its wavetable holding 2*u - 1 for each of them in order; when
    the draws lie in [0, 1), every call of amplitude afterwards returns a
    value between -1 and 1: the filter never leaves the range of its seed. *)
Theorem digitar_noise_source_bounded (f : Q) (n : Z) (g : Rng) (frames : list Z) :
  (0 < n)%Z ->
  (forall k, 0 <= draws g k /\ draws g k < 1) ->
  exists (self : @Digitar Noise) (outs : list Q) (self' : @Digitar Noise),
    Digitar_init f n (Noise_init g) = Ok self /\
    length (sample_window self) = Z.to_nat n /\
    pos (noise_rng (wavesrc self)) = (pos g + Z.to_nat n)%nat /\
    (forall i x, sample_window self !! i = Some x ->
                 x = draws g (pos g + i)%nat * 2 - 1) /\
    @run_amplitudes _ _ Digitar_amplitude self frames = Ok (outs, self') /\
    length outs = length frames /\
    (forall i v, outs !! i = Some v -> -1 <= v /\ v <= 1).
Proof.
  intros Hn Hdraws.
  pose proof (Digitar_init_run f n (Noise_init g) Hn) as Hinit.
  destruct (Noise_run (map (fun i => (0 + Z.of_nat i)%Z) (seq 0 (Z.to_nat n)))
              (Noise_init g))
    as (window & w' & Hrun & Hlen & _ & Hdr & Hpos & Hwin).
  rewrite Hrun in Hinit. cbn [noise_rng Noise_init] in Hdr, Hpos, Hwin.
  rewrite length_map, length_seq in Hlen, Hpos.
  destruct (Digitar_init_invariant f n (Noise_init g) _ Hn Hinit) as (Hinv & _).
  match type of Hinit with _ = Ok ?s => set (self := s) in * end.
  assert (Hin : window_within (-1) 1 self).
  { intros i x Hx. apply Hwin in Hx. subst x.
    destruct (Hdraws (pos g + i)%nat). split; lra. }
  destruct (Digitar_run_within (-1) 1 frames self Hinv Hin)
    as (outs & s' & Hruns & Hlens & Hout & _).
  exists self, outs, s'.
  split; [exact Hinit|]. split; [exact Hlen|]. split; [exact Hpos|].
  split; [exact Hwin|]. split; [exact Hruns|]. split; [exact Hlens | exact Hout].
Qed.

(** X19: BrownNoise and Noise do not look at the frame they are asked for:
    two runs of calls of the same length from the same state return the same
    values and leave the same state, whatever the frames; in particular
    asking twice for one frame advances the walk like asking for two frames
    in a row. *)
Theorem noise_generators_ignore_frame (frames1 frames2 : list Z) :
  length frames1 = length frames2 ->
  (forall self : BrownNoise,
      run_amplitudes self frames1 = run_amplitudes self frames2) /\
  (forall self : Noise,
      run_amplitudes self frames1 = run_amplitudes self frames2).
Proof.
  revert frames2.
  induction frames1 as [|f1 frames1 IH]; intros [|f2 frames2] Hlen;
    try discriminate; [split; reflexivity|].
  injection Hlen as Hlen. destruct (IH frames2 Hlen) as [IHb IHn].
  split; intros self; cbn [run_amplitudes].
  - change (amplitude self f1) with (BrownNoise_amplitude self f1).
    change (amplitude self f2) with (BrownNoise_amplitude self f2).
    unfold BrownNoise_amplitude.
    destruct (random (brown_rng self)) as [u g'].
    cbn [mbind result_bind mret result_ret]. now rewrite IHb.
  - change (amplitude self f1) with (Noise_amplitude self f1).
    change (amplitude self f2) with (Noise_amplitude self f2).
    unfold Noise_amplitude.
    destruct (random (noise_rng self)) as [u g'].
    cbn [mbind result_bind mret result_ret]. now rewrite IHn.
Qed.

(** The periodic waves have no state to change. *)
Lemma SawtoothWave_amplitude_state (src : SawtoothWave) (i : Z) (v : Q)
      (src' : SawtoothWave) :
  SawtoothWave_amplitude src i = Ok (v, src') -> src' = src.
Proof.
  unfold SawtoothWave_amplitude. intros H.
  apply bind_Ok_inv in H as (p & _ & H).
  apply bind_Ok_inv in H as (m & _ & H).
  apply bind_Ok_inv in H as (p' & _ & H).
  apply bind_Ok_inv in H as (d & _ & H).
  now injection H as _ <-.
Qed.

(** * The generators on doubles *)

(** ** Rounding *)

(** *** The rounding to a double is monotone *)

Lemma pow2_pos (e : Z) : 0 < 2 ^ e.
Proof. apply Qpower_0_lt. reflexivity. Qed.

Lemma pow2_succ (e : Z) : 2 ^ (e + 1) == 2 * 2 ^ e.
Proof. rewrite Qpower_plus by discriminate. rewrite Qpower_1_r. ring. Qed.

Lemma log2_Qbounds (n : Z) :
  (0 < n)%Z -> 2 ^ Z.log2 n <= inject_Z n /\ inject_Z n < 2 * 2 ^ Z.log2 n.
Proof.
  intros Hn. destruct (Z.log2_spec n Hn) as [Hlo Hhi].
  pose proof (Z.log2_nonneg n) as Hl.
  rewrite <- pow2_succ.
  change 2 with (inject_Z 2).
  rewrite <- !Zpower_Qpower by lia.
  split; [rewrite <- Zle_Qle; exact Hlo | rewrite <- Zlt_Qlt; exact Hhi].
Qed.

Lemma binade_spec (a : Q) :
  0 < a -> 2 ^ binade a <= a /\ a < 2 ^ (binade a + 1).
Proof.
  intros Ha. unfold binade.
  set (n := Qnum a). set (d := Zpos (Qden a)).
  set (e0 := (Z.log2 n - Z.log2 d)%Z).
  assert (Hn : (0 < n)%Z).
  { destruct a as [an ad]. unfold Qlt in Ha. cbn in *. subst n. cbn. lia. }
  destruct (log2_Qbounds n Hn) as [HnL HnH].
  destruct (log2_Qbounds d eq_refl) as [HdL HdH].
  pose proof (pow2_pos (Z.log2 n)) as HA.
  pose proof (pow2_pos (Z.log2 d)) as HB.
  pose proof (pow2_pos e0) as HE.
  assert (HEB : 2 ^ e0 * 2 ^ Z.log2 d == 2 ^ Z.log2 n).
  { rewrite <- Qpower_plus by discriminate. unfold e0.
    replace (Z.log2 n - Z.log2 d + Z.log2 d)%Z with (Z.log2 n) by lia. reflexivity. }
  assert (HaD : a * inject_Z d == inject_Z n).
  { destruct a as [an ad]. subst n d. unfold Qeq, inject_Z. cbn. lia. }
  destruct (Qle_bool (2 ^ e0) a) eqn:E.
  - apply Qle_bool_iff in E. split; [exact E|].
    rewrite pow2_succ. apply Qnot_le_lt. intros H.
    assert (H1 : 2 * 2 ^ e0 * 2 ^ Z.log2 d <= a * inject_Z d).
    { apply Qle_trans with (a * 2 ^ Z.log2 d).
      - apply Qmult_le_compat_r; [exact H | lra].
      - apply Qmult_le_l; [exact Ha | exact HdL]. }
    rewrite HaD in H1. lra.
  - assert (E' : a < 2 ^ e0).
    { apply Qnot_le_lt. intros H. apply Qle_bool_iff in H. congruence. }
    replace (e0 - 1 + 1)%Z with e0 by lia. split; [|exact E'].
    assert (Hh : 2 * 2 ^ (e0 - 1) == 2 ^ e0).
    { rewrite <- pow2_succ. replace (e0 - 1 + 1)%Z with e0 by lia. reflexivity. }
    apply Qnot_lt_le. intros H.
    assert (H1 : a * inject_Z d < 2 ^ (e0 - 1) * (2 * 2 ^ Z.log2 d)).
    { apply Qle_lt_trans with (a * (2 * 2 ^ Z.log2 d)).
      - apply Qmult_le_l; [exact Ha | lra].
      - apply Qmult_lt_compat_r; [lra | exact H]. }
    rewrite HaD in H1.
    assert (H2 : 2 ^ (e0 - 1) * (2 * 2 ^ Z.log2 d) == 2 ^ Z.log2 n).
    { rewrite <- HEB, <- Hh. ring. }
    rewrite H2 in H1. lra.
Qed.

Lemma rne_cases (x : Q) : rne x = Qfloor x \/ rne x = (Qfloor x + 1)%Z.
Proof.
  unfold rne. destruct (Qlt_bool _ _); [now left|].
  destruct (Qlt_bool _ _); [now right|].
  destruct (Z.even _); [now left | now right].
Qed.

Lemma rne_inject_Z (n : Z) : rne (inject_Z n) = n.
Proof.
  unfold rne. rewrite Qfloor_Z.
  assert (H : Qlt_bool (inject_Z n - inject_Z n) (1 # 2) = true).
  { apply Qlt_bool_iff. lra. }
  now rewrite H.
Qed.

Lemma rne_mono (x y : Q) : x <= y -> (rne x <= rne y)%Z.
Proof.
  intros Hxy. pose proof (Qfloor_resp_le x y Hxy) as Hfl.
  destruct (Z.eq_dec (Qfloor x) (Qfloor y)) as [E|NE].
  - unfold rne. rewrite E.
    destruct (Qlt_bool (x - inject_Z (Qfloor y)) (1 # 2)) eqn:X1;
      destruct (Qlt_bool (y - inject_Z (Qfloor y)) (1 # 2)) eqn:Y1;
      destruct (Qlt_bool (1 # 2) (x - inject_Z (Qfloor y))) eqn:X2;
      destruct (Qlt_bool (1 # 2) (y - inject_Z (Qfloor y))) eqn:Y2;
      destruct (Z.even (Qfloor y));
      rewrite ?Qlt_bool_iff, ?Qlt_bool_false in *; try lia; exfalso; lra.
  - destruct (rne_cases x) as [-> | ->], (rne_cases y) as [-> | ->]; lia.
Qed.

Lemma scaled_range (a : Q) :
  0 < a ->
  inject_Z (2 ^ 52) <= a * 2 ^ (52 - binade a) /\
  a * 2 ^ (52 - binade a) < inject_Z (2 ^ 53).
Proof.
  intros Ha. destruct (binade_spec a Ha) as [Hlo Hhi].
  pose proof (pow2_pos (52 - binade a)) as Hs.
  change 2%Z with (Qnum 2) at 1 3. 
  change (inject_Z (Qnum 2 ^ 52)) with (inject_Z (2 ^ 52)).
  change (inject_Z (Qnum 2 ^ 53)) with (inject_Z (2 ^ 53)).
  rewrite !Zpower_Qpower by lia. change (inject_Z 2) with 2.
  assert (E52 : 2 ^ 52 == 2 ^ binade a * 2 ^ (52 - binade a)).
  { rewrite <- Qpower_plus by discriminate.
    replace (binade a + (52 - binade a))%Z with 52%Z by lia. reflexivity. }
  assert (E53 : 2 ^ 53 == 2 ^ (binade a + 1) * 2 ^ (52 - binade a)).
  { rewrite <- Qpower_plus by discriminate.
    replace (binade a + 1 + (52 - binade a))%Z with 53%Z by lia. reflexivity. }
  rewrite E52, E53. split.
  - apply Qmult_le_compat_r; [exact Hlo | lra].
  - apply Qmult_lt_compat_r; [exact Hs | exact Hhi].
Qed.

Lemma rne_scaled_range (a : Q) :
  0 < a ->
  (2 ^ 52 <= rne (a * 2 ^ (52 - binade a)) <= 2 ^ 53)%Z.
Proof.
  intros Ha. destruct (scaled_range a Ha) as [Hlo Hhi]. split.
  - rewrite <- (rne_inject_Z (2 ^ 52)). apply rne_mono. exact Hlo.
  - rewrite <- (rne_inject_Z (2 ^ 53)). apply rne_mono. lra.
Qed.

Lemma round53_pos_bounds (a : Q) :
  0 < a ->
  2 ^ binade a <= round53_pos a /\ round53_pos a <= 2 ^ (binade a + 1).
Proof.
  intros Ha. destruct (rne_scaled_range a Ha) as [Hlo Hhi].
  unfold round53_pos. set (s := (52 - binade a)%Z) in *.
  pose proof (pow2_pos s) as Hs.
  assert (E52 : inject_Z (2 ^ 52) == 2 ^ binade a * 2 ^ s).
  { rewrite Zpower_Qpower by lia. change (inject_Z 2) with 2.
    rewrite <- Qpower_plus by discriminate. unfold s.
    replace (binade a + (52 - binade a))%Z with 52%Z by lia. reflexivity. }
  assert (E53 : inject_Z (2 ^ 53) == 2 ^ (binade a + 1) * 2 ^ s).
  { rewrite Zpower_Qpower by lia. change (inject_Z 2) with 2.
    rewrite <- Qpower_plus by discriminate. unfold s.
    replace (binade a + 1 + (52 - binade a))%Z with 53%Z by lia. reflexivity. }
  rewrite Zle_Qle in Hlo, Hhi. rewrite E52 in Hlo. rewrite E53 in Hhi.
  split.
  - apply Qle_shift_div_l; [exact Hs | exact Hlo].
  - apply Qle_shift_div_r; [exact Hs | exact Hhi].
Qed.

Lemma round53_pos_pos (a : Q) : 0 < a -> 0 < round53_pos a.
Proof.
  intros Ha. destruct (round53_pos_bounds a Ha) as [Hlo _].
  pose proof (pow2_pos (binade a)). lra.
Qed.

Lemma round53_pos_mono (x y : Q) :
  0 < x -> x <= y -> round53_pos x <= round53_pos y.
Proof.
  intros Hx Hxy. assert (Hy : 0 < y) by lra.
  destruct (binade_spec x Hx) as [Hxl Hxh].
  destruct (binade_spec y Hy) as [Hyl Hyh].
  destruct (Z.lt_trichotomy (binade x) (binade y)) as [Hb | [Hb | Hb]].
  - destruct (round53_pos_bounds x Hx) as [_ Hxu].
    destruct (round53_pos_bounds y Hy) as [Hyu _].
    apply Qle_trans with (2 ^ (binade x + 1)); [exact Hxu|].
    apply Qle_trans with (2 ^ binade y); [|exact Hyu].
    apply Qpower_le_compat_l; [lia | discriminate].
  - unfold round53_pos. rewrite Hb.
    pose proof (pow2_pos (52 - binade y)) as Hs.
    apply Qmult_le_compat_r; [|apply Qlt_le_weak, Qinv_lt_0_compat; exact Hs].
    rewrite <- Zle_Qle. apply rne_mono.
    apply Qmult_le_compat_r; [exact Hxy | lra].
  - exfalso.
    assert (H : 2 ^ (binade y + 1) <= 2 ^ binade x)
      by (apply Qpower_le_compat_l; [lia | discriminate]).
    lra.
Qed.

Lemma round53_comp (x y : Q) : x == y -> round53 x == round53 y.
Proof.
  intros H. apply Qred_complete in H. unfold round53. now rewrite H.
Qed.

Lemma sign_cases (q : Q) :
  (Qeq_bool q 0 = true /\ q == 0) \/
  (Qeq_bool q 0 = false /\ Qlt_bool q 0 = true /\ q < 0) \/
  (Qeq_bool q 0 = false /\ Qlt_bool q 0 = false /\ 0 < q).
Proof.
  destruct (Qeq_bool q 0) eqn:E0.
  - left. split; [reflexivity | now apply Qeq_bool_iff].
  - right. apply Qeq_bool_neq in E0.
    destruct (Qlt_bool q 0) eqn:E1.
    + left. apply Qlt_bool_iff in E1. auto.
    + right. apply Qlt_bool_false in E1.
      do 2 (split; [reflexivity|]).
      apply Qle_lt_or_eq in E1 as [H | H]; [exact H | exfalso; apply E0; lra].
Qed.

Lemma round53_mono (x y : Q) : x <= y -> round53 x <= round53 y.
Proof.
  intros Hxy. unfold round53.
  set (x' := Qred x). set (y' := Qred y). rewrite !Qred_correct.
  assert (Hxy' : x' <= y') by (unfold x', y'; rewrite !Qred_correct; exact Hxy).
  destruct (sign_cases x') as [[-> Hx] | [(-> & -> & Hx) | (-> & -> & Hx)]];
    destruct (sign_cases y') as [[-> Hy] | [(-> & -> & Hy) | (-> & -> & Hy)]];
    try lra.
  - pose proof (round53_pos_pos y' Hy). lra.
  - pose proof (round53_pos_pos (- x') ltac:(lra)). lra.
  - pose proof (round53_pos_mono (- y') (- x') ltac:(lra) ltac:(lra)). lra.
  - pose proof (round53_pos_pos y' Hy).
    pose proof (round53_pos_pos (- x') ltac:(lra)). lra.
  - apply round53_pos_mono; assumption.
Qed.

Lemma fl_div_ok (rnd : Q -> Q) (x y : Q) :
  ~ y == 0 -> fl_div rnd x y = Ok (rnd (x / y)).
Proof.
  intros Hy. unfold fl_div.
  destruct (Qeq_bool y 0) eqn:E; [|reflexivity].
  apply Qeq_bool_eq in E. contradiction.
Qed.

(** On a non-negative dividend and a positive divisor [%] is exact: no
    rounding takes place. *)
Lemma fl_mod_nonneg (rnd : Q -> Q) (x y : Q) :
  0 <= x -> 0 < y ->
  fl_mod rnd x y = Ok (x - y * inject_Z (Qfloor (x / y))).
Proof.
  intros Hx Hy. unfold fl_mod.
  destruct (Qeq_bool y 0) eqn:E; [apply Qeq_bool_eq in E; lra|].
  assert (Hq : 0 <= x / y) by (apply Qle_shift_div_l; [assumption|lra]).
  rewrite (py_int_floor _ Hq).
  destruct (Qmod_bounds x y Hy) as [Hm0 _].
  set (m := x - y * inject_Z (Qfloor (x / y))) in *.
  assert (B1 : Qlt_bool y 0 = false) by (apply Qlt_bool_false; lra).
  assert (B2 : Qlt_bool m 0 = false) by (apply Qlt_bool_false; lra).
  rewrite B1, B2. cbn [Bool.eqb negb]. now rewrite andb_false_r.
Qed.

Lemma TriangleWave_amplitude_fl_eq (rnd : Q -> Q) (f : Q) (frame : Z) (p m : Q) :
  period_fl rnd (Sample_init f) = Ok p ->
  fl_mod rnd (rnd (inject_Z frame)) p = Ok m ->
  TriangleWave_amplitude_fl rnd (TriangleWave_init f) frame
  = v ← triangle_value_fl rnd p m; mret (v, TriangleWave_init f).
Proof.
  intros Hp Hm. unfold TriangleWave_amplitude_fl, triangle_value_fl.
  cbn [tri_base TriangleWave_init]. rewrite Hp. cbn [mbind result_bind].
  rewrite Hm. cbn [mbind result_bind].
  repeat match goal with
         | |- context [if ?b then _ else _] => destruct b
         end;
    match goal with
    | |- context [fl_div ?r ?a ?b] => destruct (fl_div r a b); reflexivity
    end.
Qed.

(** With halving exact on the period, the triangle value returns, and equal
    positions give equal values. *)
Lemma triangle_value_fl_comp (rnd : Q -> Q) (p m m' : Q) :
  (forall x y, x == y -> rnd x == rnd y) ->
  0 < p -> rnd (p / 2) == p / 2 -> rnd (p / 2 / 2) == p / 2 / 2 ->
  m' == m ->
  exists v' v,
    triangle_value_fl rnd p m' = Ok v' /\ triangle_value_fl rnd p m = Ok v /\
    v' == v.
Proof.
  intros Hrnd Hp Hh Hq Hm. unfold triangle_value_fl.
  set (h := rnd (p / 2)) in *.
  assert (Hq' : rnd (h / 2) == p / 2 / 2).
  { rewrite <- Hq. apply Hrnd. now rewrite Hh. }
  set (q := rnd (h / 2)) in *.
  assert (Hhv : h == p * (1 # 2)) by (rewrite Hh; reflexivity).
  assert (Hqv : q == p * (1 # 4)) by (rewrite Hq'; field).
  assert (Hqnz : ~ q == 0) by lra.
  assert (Hhnz : ~ - h == 0) by lra.
  rewrite (Qlt_bool_comp m' m q q Hm (Qeq_refl q)).
  destruct (Qlt_bool m q).
  - rewrite !fl_div_ok by assumption. do 2 eexists.
    split; [reflexivity|]. split; [reflexivity|]. apply Hrnd. now rewrite Hm.
  - assert (Hpf : rnd (m' - q) == rnd (m - q)) by (apply Hrnd; now rewrite Hm).
    rewrite (Qlt_bool_comp _ _ h h Hpf (Qeq_refl h)).
    destruct (Qlt_bool (rnd (m - q)) h).
    + rewrite !fl_div_ok by assumption. cbn [mbind result_bind mret result_ret].
      do 2 eexists. split; [reflexivity|]. split; [reflexivity|].
      apply Hrnd.
      assert (E : rnd (rnd (rnd (m' - q) / - h) * 2) == rnd (rnd (rnd (m - q) / - h) * 2)).
      { apply Hrnd.
        assert (E' : rnd (rnd (m' - q) / - h) == rnd (rnd (m - q) / - h))
          by (apply Hrnd; now rewrite Hpf).
        now rewrite E'. }
      now rewrite E.
    + rewrite !fl_div_ok by assumption. cbn [mbind result_bind mret result_ret].
      do 2 eexists. split; [reflexivity|]. split; [reflexivity|].
      apply Hrnd.
      assert (E : rnd (rnd (rnd (m' - q) - h) / q) == rnd (rnd (rnd (m - q) - h) / q)).
      { apply Hrnd.
        assert (E' : rnd (rnd (m' - q) - h) == rnd (rnd (m - q) - h))
          by (apply Hrnd; now rewrite Hpf).
        now rewrite E'. }
      now rewrite E.
Qed.

(** C7 (amended): on doubles, for any rounding that gives equal results on
    equal numbers: when the period that the code computes,
    [1/frequency * SAMPLE_RATE] rounded as the code rounds it, is a positive
    integer [P] (so that halving it twice is exact), and the frames [frame >=
    0] and [frame + k * P] convert to doubles exactly, the square, sawtooth
    and triangle waves return and have the same amplitude at both frames. *)
Theorem periodic_waves_periodic_on_doubles
        (rnd : Q -> Q) (f sp p : Q) (P frame : Z) (k : nat) :
  (forall x y, x == y -> rnd x == rnd y) ->
  period_fl rnd (Sample_init f) = Ok p ->
  p == inject_Z P -> (0 < P)%Z ->
  rnd (p / 2) == p / 2 -> rnd (p / 2 / 2) == p / 2 / 2 ->
  (0 <= frame)%Z ->
  let frame' := (frame + Z.of_nat k * P)%Z in
  rnd (inject_Z frame) == inject_Z frame ->
  rnd (inject_Z frame') == inject_Z frame' ->
  (exists v, SquareWave_amplitude_fl rnd (SquareWave_init f sp) frame'
               = Ok (v, SquareWave_init f sp) /\
             SquareWave_amplitude_fl rnd (SquareWave_init f sp) frame
               = Ok (v, SquareWave_init f sp)) /\
  (exists v' v, SawtoothWave_amplitude_fl rnd (SawtoothWave_init f) frame'
                  = Ok (v', SawtoothWave_init f) /\
                SawtoothWave_amplitude_fl rnd (SawtoothWave_init f) frame
                  = Ok (v, SawtoothWave_init f) /\ v' == v) /\
  (exists v' v, TriangleWave_amplitude_fl rnd (TriangleWave_init f) frame'
                  = Ok (v', TriangleWave_init f) /\
                TriangleWave_amplitude_fl rnd (TriangleWave_init f) frame
                  = Ok (v, TriangleWave_init f) /\ v' == v).
Proof.
  intros Hrnd Hp HpP HP Hh Hq Hframe frame' Hrep Hrep'.
  assert (HP' : 0 < inject_Z P) by (change 0 with (inject_Z 0); now rewrite <- Zlt_Qlt).
  assert (Hpos : 0 < p) by lra.
  assert (Hnz : ~ p == 0) by lra.
  assert (Hf0 : 0 <= inject_Z frame)
    by (change 0 with (inject_Z 0); now rewrite <- Zle_Qle).
  assert (Hf0' : 0 <= inject_Z frame').
  { change 0 with (inject_Z 0). rewrite <- Zle_Qle. unfold frame'. nia. }
  (* the positions of the two frames inside the period *)
  set (m := rnd (inject_Z frame)
            - p * inject_Z (Qfloor (rnd (inject_Z frame) / p))).
  set (m' := rnd (inject_Z frame')
             - p * inject_Z (Qfloor (rnd (inject_Z frame') / p))).
  assert (Hm : fl_mod rnd (rnd (inject_Z frame)) p = Ok m)
    by (apply fl_mod_nonneg; lra).
  assert (Hm' : fl_mod rnd (rnd (inject_Z frame')) p = Ok m')
    by (apply fl_mod_nonneg; lra).
  assert (Heq : m' == m).
  { assert (T : Qfloor (rnd (inject_Z frame) / p) = Qfloor (inject_Z frame / p))
      by (apply Qfloor_comp; now rewrite Hrep).
    assert (T' : Qfloor (rnd (inject_Z frame') / p) = Qfloor (inject_Z frame' / p))
      by (apply Qfloor_comp; now rewrite Hrep').
    unfold m, m'. rewrite T, T', Hrep, Hrep'.
    apply (Qmod_shift p P frame k HpP HP). }
  split; [|split].
  - unfold SquareWave_amplitude_fl. cbn [square_base split SquareWave_init].
    rewrite Hp. cbn [mbind result_bind]. rewrite Hm, Hm'.
    cbn [mbind result_bind mret result_ret].
    eexists. split; [|reflexivity].
    now rewrite (Qlt_bool_comp m' m _ _ Heq (Qeq_refl (rnd (p * sp)))).
  - unfold SawtoothWave_amplitude_fl. cbn [saw_base SawtoothWave_init].
    rewrite Hp. cbn [mbind result_bind]. rewrite Hm, Hm'.
    cbn [mbind result_bind]. rewrite !fl_div_ok by assumption.
    cbn [mbind result_bind mret result_ret].
    do 2 eexists. split; [reflexivity|]. split; [reflexivity|].
    apply Hrnd.
    assert (E : rnd (rnd (m' / p) * 2) == rnd (rnd (m / p) * 2)).
    { apply Hrnd.
      assert (E' : rnd (m' / p) == rnd (m / p)) by (apply Hrnd; now rewrite Heq).
      now rewrite E'. }
    now rewrite E.
  - rewrite (TriangleWave_amplitude_fl_eq rnd f frame' p m' Hp Hm').
    rewrite (TriangleWave_amplitude_fl_eq rnd f frame p m Hp Hm).
    destruct (triangle_value_fl_comp rnd p m m' Hrnd Hpos Hh Hq Heq)
      as (v' & v & Hv' & Hv & Hvv).
    rewrite Hv', Hv. cbn [mbind result_bind mret result_ret].
    exists v', v. split; [reflexivity|]. split; [reflexivity | exact Hvv].
Qed.

(** ** BrownNoise on doubles *)

Lemma clamp_range (x : Q) : -1 <= clamp x /\ clamp x <= 1.
Proof.
  unfold clamp.
  destruct (Qlt_bool 1 x) eqn:E1; [split; lra|]. apply Qlt_bool_false in E1.
  destruct (Qlt_bool x (-1)) eqn:E2; [split; lra|]. apply Qlt_bool_false in E2.
  split; assumption.
Qed.

(** One call: the increment added to [prev] is at most [fac] in magnitude;
    the sum is rounded, then clamped. *)
Lemma BrownNoise_amplitude_fl_step (rnd : Q -> Q) (self : BrownNoise) (frame : Z) :
  (forall x y, x <= y -> rnd x <= rnd y) ->
  rnd 0 == 0 -> rnd 2 == 2 -> rnd 1 == 1 -> rnd (-1) == -1 ->
  rnd (fac self) == fac self -> rnd (- fac self) == - fac self ->
  0 < fac self ->
  0 <= draws (brown_rng self) (pos (brown_rng self)) ->
  draws (brown_rng self) (pos (brown_rng self)) <= 1 ->
  exists s self',
    BrownNoise_amplitude_fl rnd self frame
      = Ok (clamp (rnd (prev self + s)), self') /\
    Qabs s <= fac self /\
    prev self' = clamp (rnd (prev self + s)) /\ fac self' = fac self /\
    draws (brown_rng self') = draws (brown_rng self) /\
    pos (brown_rng self') = S (pos (brown_rng self)).
Proof.
  intros Hmono H0 H2 H1 Hm1 Hfc Hmfc Hfac Hu0 Hu1.
  unfold BrownNoise_amplitude_fl, random.
  set (u := draws (brown_rng self) (pos (brown_rng self))) in *.
  assert (Ha : 0 <= rnd (u * 2) /\ rnd (u * 2) <= 2).
  { split.
    - rewrite <- H0. apply Hmono. lra.
    - rewrite <- H2 at 2. apply Hmono. lra. }
  assert (Hb : -1 <= rnd (rnd (u * 2) - 1) /\ rnd (rnd (u * 2) - 1) <= 1).
  { split.
    - rewrite <- Hm1 at 1. apply Hmono. lra.
    - rewrite <- H1 at 2. apply Hmono. lra. }
  set (d := rnd (rnd (u * 2) - 1)) in *.
  assert (Hs1 : -1 * fac self <= d * fac self)
    by (apply Qmult_le_compat_r; lra).
  assert (Hs2 : d * fac self <= 1 * fac self)
    by (apply Qmult_le_compat_r; lra).
  assert (Hc : - fac self <= rnd (d * fac self) /\ rnd (d * fac self) <= fac self).
  { split.
    - rewrite <- Hmfc. apply Hmono. lra.
    - rewrite <- Hfc at 2. apply Hmono. lra. }
  exists (rnd (d * fac self)). eexists. split; [reflexivity|].
  split; [apply Qabs_Qle_condition; exact Hc|].
  repeat split.
Qed.

Lemma BrownNoise_fl_run (rnd : Q -> Q) (fc : Q) (frames : list Z) :
  (forall x y, x <= y -> rnd x <= rnd y) ->
  rnd 0 == 0 -> rnd 2 == 2 -> rnd 1 == 1 -> rnd (-1) == -1 ->
  rnd fc == fc -> rnd (- fc) == - fc -> 0 < fc ->
  forall self : BrownNoise,
    fac self = fc ->
    (forall n, 0 <= draws (brown_rng self) n /\ draws (brown_rng self) n <= 1) ->
    exists outs self',
      @run_amplitudes _ _ (BrownNoise_amplitude_fl rnd) self frames
        = Ok (outs, self') /\
      length outs = length frames /\
      (forall i v, outs !! i = Some v -> -1 <= v /\ v <= 1) /\
      (forall i a b, (prev self :: outs) !! i = Some a -> outs !! i = Some b ->
                     exists s, Qabs s <= fc /\ b = clamp (rnd (a + s))).
Proof.
  intros Hmono H0 H2 H1 Hm1 Hfc Hmfc Hfac.
  induction frames as [|frame frames IH]; intros self Hself Hdraws.
  - exists [], self. do 2 (split; [reflexivity|]). split.
    + intros i v H. destruct i; discriminate.
    + intros i a b _ H. destruct i; discriminate.
  - destruct (Hdraws (pos (brown_rng self))) as [Hu0 Hu1].
    destruct (BrownNoise_amplitude_fl_step rnd self frame Hmono H0 H2 H1 Hm1)
      as (s & self1 & Hstep & Hs & Hprev & Hfc1 & Hdr & _);
      try (rewrite Hself; assumption); try assumption.
    destruct (IH self1) as (outs & self2 & Hrun & Hlen & Hrange & Hcons).
    { now rewrite Hfc1. }
    { intros n. rewrite Hdr. apply Hdraws. }
    exists (clamp (rnd (prev self + s)) :: outs), self2. cbn [run_amplitudes].
    change (amplitude self frame) with (BrownNoise_amplitude_fl rnd self frame).
    rewrite Hstep. cbn [mbind result_bind]. rewrite Hrun.
    split; [reflexivity|]. split; [cbn; now rewrite Hlen|]. split.
    + intros i w H. destruct i as [|i]; cbn in H.
      * injection H as <-. apply clamp_range.
      * now apply Hrange in H.
    + intros i a b Ha Hb. destruct i as [|i]; cbn in Ha, Hb.
      * injection Ha as <-. injection Hb as <-. exists s.
        rewrite <- Hself. split; [exact Hs | reflexivity].
      * apply (Hcons i a b); [rewrite Hprev; exact Ha | exact Hb].
Qed.

(** C8 (amended): on doubles, for a rounding that is monotone and leaves -1,
    0, 1, 2, [fac] and [-fac] as they are, for a positive [fac], for every
    sequence of calls and every draw of the random generator between 0 and
    1: every call returns, every value returned lies between -1 and 1, and
    each value returned is the double nearest to the previous one (0 before
    the first call) plus an increment of magnitude at most [fac], clamped to
    the range from -1 to 1. *)
Theorem brown_noise_walk_on_doubles
        (rnd : Q -> Q) (fc : Q) (g : Rng) (frames : list Z) :
  (forall x y, x <= y -> rnd x <= rnd y) ->
  rnd 0 == 0 -> rnd 2 == 2 -> rnd 1 == 1 -> rnd (-1) == -1 ->
  rnd fc == fc -> rnd (- fc) == - fc ->
  0 < fc ->
  (forall n, 0 <= draws g n /\ draws g n <= 1) ->
  exists outs self',
    @run_amplitudes _ _ (BrownNoise_amplitude_fl rnd) (BrownNoise_init fc g) frames
      = Ok (outs, self') /\
    length outs = length frames /\
    (forall i v, outs !! i = Some v -> -1 <= v /\ v <= 1) /\
    (forall i a b, (0 :: outs) !! i = Some a -> outs !! i = Some b ->
                   exists s, Qabs s <= fc /\ b = clamp (rnd (a + s))).
Proof.
  intros Hmono H0 H2 H1 Hm1 Hfc Hmfc Hfac Hdraws.
  apply (BrownNoise_fl_run rnd fc frames Hmono H0 H2 H1 Hm1 Hfc Hmfc Hfac
           (BrownNoise_init fc g) eq_refl Hdraws).
Qed.

End Samples.

Arguments Digitar W : clear implicits.

(** * The properties at concrete inputs

    The sample rate is 44100 frames per second below. *)

(** C1: a Digitar of frequency 11025 with a wavetable of 2 entries seeded
    from a sawtooth wave, moved to frame 1 and then asked to seek back to
    frame 0.  The seek leaves cur_frame at 0 but keeps the filtered
    wavetable [-1; -13/20] and the phase 1/2, where reinitializing the
    buffer ([new_buffer]) gives the seed [-1; -1/2] and the phase 0: the
    backward seek does not reinitialize the buffer. *)
Theorem digitar_seek_backward_not_reinitialized :
  exists d d1 d2 fresh : Digitar SawtoothWave,
    @Digitar_init 44100 _ (SawtoothWave_Signal 44100) 11025 2
      (SawtoothWave_init 11025) = Ok d /\
    seek d 1 = Ok d1 /\ cur_frame d1 = 1%Z /\
    seek d1 0 = Ok d2 /\
    @new_buffer _ (SawtoothWave_Signal 44100) d1 = Ok fresh /\
    cur_frame d2 = 0%Z /\
    map Qred (sample_window d2) = [-1; -13 # 20] /\ Qred (phase d2) = 1 # 2 /\
    cur_frame fresh = 0%Z /\
    map Qred (sample_window fresh) = [-1; -1 # 2] /\ phase fresh = 0.
Proof.
  do 4 eexists.
  split; [vm_compute; reflexivity|].
  split; [vm_compute; reflexivity|].
  split; [reflexivity|].
  split; [vm_compute; reflexivity|].
  split; [vm_compute; reflexivity|].
  repeat split.
Qed.

Lemma periodic_waves_in_range_witness :
  0 < 441 /\
  exists v, SawtoothWave_amplitude 44100 (SawtoothWave_init 441) 25
              = Ok (v, SawtoothWave_init 441) /\ -1 <= v /\ v <= 1.
Proof.
  split; [reflexivity|].
  apply (periodic_waves_in_range 44100 eq_refl 441 (1 # 2) 25 eq_refl).
Defined.

Lemma digitar_invariant_preserved_witness :
  exists self : Digitar SawtoothWave,
    @reachable 44100 _ (SawtoothWave_Signal 44100) self /\ invariant self.
Proof.
  assert (Hr : exists self : Digitar SawtoothWave,
             @reachable 44100 _ (SawtoothWave_Signal 44100) self).
  { eexists.
    eapply (@reach_init 44100 _ (SawtoothWave_Signal 44100) 11025 2
              (SawtoothWave_init 11025)); [reflexivity|].
    vm_compute. reflexivity. }
  destruct Hr as [self Hr]. exists self. split; [exact Hr|].
  exact (proj1 (digitar_invariant_preserved 44100 self Hr)).
Defined.

Lemma digitar_amplitude_idempotent_witness :
  let self := @mkDigitar SawtoothWave (Sample_init 11025) (SawtoothWave_init 11025)
                2 [1; 0] 0 (1 # 2) 0 false in
  (cur_frame self <= 3)%Z /\
  forall v self',
    Digitar_amplitude self 3 = Ok (v, self') ->
    cur_frame self' = 3%Z /\ seek self' 3 = Ok self' /\
    Digitar_amplitude self' 3 = Ok (v, self').
Proof.
  intros self. split; [discriminate|].
  apply (digitar_amplitude_idempotent self 3). discriminate.
Defined.

Lemma digitar_amplitude_interpolates_witness :
  exists (self : Digitar SawtoothWave) a0 w1 v,
    @Digitar_init 44100 _ (SawtoothWave_Signal 44100) 11025 2
      (SawtoothWave_init 11025) = Ok self /\
    SawtoothWave_amplitude 44100 (SawtoothWave_init 11025) 0 = Ok (a0, w1) /\
    sample_window self !! 0%nat = Some a0 /\
    Digitar_amplitude self 0 = Ok (v, self) /\ v == a0.
Proof.
  assert (Hi : exists self : Digitar SawtoothWave,
             @Digitar_init 44100 _ (SawtoothWave_Signal 44100) 11025 2
               (SawtoothWave_init 11025) = Ok self).
  { eexists. vm_compute. reflexivity. }
  destruct Hi as [self Hi].
  destruct (proj2 (digitar_amplitude_interpolates 44100
                     (W_Signal := SawtoothWave_Signal 44100))
              11025 2%Z (SawtoothWave_init 11025) self eq_refl Hi)
    as (a0 & w1 & v & H).
  exists self, a0, w1, v. split; [exact Hi | exact H].
Defined.

Lemma digitar_tick_transition_witness :
  exists self : Digitar SawtoothWave,
    @reachable 44100 _ (SawtoothWave_Signal 44100) self /\
    exists self', tick self = Ok self' /\ cur_frame self' = (cur_frame self + 1)%Z.
Proof.
  assert (Hr : exists self : Digitar SawtoothWave,
             @reachable 44100 _ (SawtoothWave_Signal 44100) self).
  { eexists.
    eapply (@reach_init 44100 _ (SawtoothWave_Signal 44100) 11025 2
              (SawtoothWave_init 11025)); [reflexivity|].
    vm_compute. reflexivity. }
  destruct Hr as [self Hr]. exists self. split; [exact Hr|].
  destruct (digitar_tick_transition 44100 self Hr)
    as (a & b & v & self' & _ & _ & Htick & _ & _ & _ & _ & Hcur & _).
  exists self'. split; [exact Htick | exact Hcur].
Defined.

Lemma digitar_seek_backward_keeps_wavetable_witness :
  let self := @mkDigitar SawtoothWave (Sample_init 11025) (SawtoothWave_init 11025)
                2 [1; 0] 5 (1 # 2) (1 # 2) false in
  (2 < cur_frame self)%Z /\
  exists self0,
    cur_frame self0 = 0%Z /\ phase self0 = phase self /\
    sample_window self0 = sample_window self /\ same_config self self0 /\
    seek self 2 = ticks 2 self0.
Proof.
  intros self. split; [reflexivity|].
  apply (digitar_seek_backward_keeps_wavetable self 2). reflexivity.
Defined.

(** ** The further properties at concrete inputs *)

Lemma periodic_waves_zero_frequency_witness :
  0 # 3 == 0 /\
  SawtoothWave_amplitude 44100 (SawtoothWave_init (0 # 3)) 5
    = Raise ZeroDivisionError.
Proof.
  split; [reflexivity|].
  apply (periodic_waves_zero_frequency 44100 (0 # 3) (1 # 2) 5 eq_refl).
Defined.

Lemma square_wave_duty_cycle_witness :
  0 < 441 /\
  exists v v0,
    SquareWave_amplitude 44100 (SquareWave_init 441 (1 # 2)) 7
      = Ok (v, SquareWave_init 441 (1 # 2)) /\
    SquareWave_amplitude 44100 (SquareWave_init 441 (1 # 2)) 0
      = Ok (v0, SquareWave_init 441 (1 # 2)) /\
    (v = 1 \/ v = -1) /\ v0 = 1.
Proof.
  split; [reflexivity|].
  destruct (square_wave_duty_cycle 44100 eq_refl 441 (1 # 2) 7 eq_refl)
    as (v & v0 & Hv & Hv0 & Hpm & Hstart & _).
  exists v, v0. split; [exact Hv|]. split; [exact Hv0|].
  split; [exact Hpm | apply Hstart; reflexivity].
Defined.


Lemma sine_wave_odd_witness :
  0 < 441 /\
  exists v,
    SineWave_amplitude 44100 (SineWave_init 441) 0 = Ok (0%R, SineWave_init 441) /\
    SineWave_amplitude 44100 (SineWave_init 441) 7 = Ok (v, SineWave_init 441) /\
    SineWave_amplitude 44100 (SineWave_init 441) (- 7)
      = Ok ((- v)%R, SineWave_init 441).
Proof.
  split; [reflexivity|].
  apply (sine_wave_odd 44100 eq_refl 441 7 eq_refl).
Defined.

Lemma noise_consumes_one_draw_per_call_witness :
  (forall n : nat, 0 <= 1 # 4 /\ 1 # 4 < 1) /\
  exists (outs : list Q) (self' : Noise),
    @run_amplitudes _ _ Noise_Signal (Noise_init (mkRng (fun _ => 1 # 4) 0)) [0; 5]%Z
      = Ok (outs, self') /\
    pos (noise_rng self') = 2%nat /\
    (forall i v, outs !! i = Some v -> -1 <= v /\ v < 1).
Proof.
  split; [intros n; split; [discriminate | reflexivity]|].
  destruct (noise_consumes_one_draw_per_call (mkRng (fun _ => 1 # 4) 0) [0; 5]%Z)
    as (outs & self' & Hrun & _ & _ & Hpos & _ & Hrange).
  exists outs, self'. split; [exact Hrun|]. split; [exact Hpos|].
  apply Hrange. intros n; split; [discriminate | reflexivity].
Defined.


Lemma digitar_degenerate_buffersize_witness :
  (-2 < 0)%Z /\
  exists self : Digitar SawtoothWave,
    @Digitar_init 44100 _ (SawtoothWave_Signal 44100) 11025 (-2)
      (SawtoothWave_init 11025) = Ok self /\
    sample_window self = [] /\
    forall frame, Digitar_amplitude self frame = Raise IndexError.
Proof.
  split; [reflexivity|].
  destruct (proj2 (@digitar_degenerate_buffersize 44100 eq_refl _
                     (SawtoothWave_Signal 44100) 11025 (-2)
                     (SawtoothWave_init 11025)) eq_refl)
    as (self & Hinit & Hwin & _ & _ & _ & Hamp).
  exists self. split; [exact Hinit|]. split; [exact Hwin | exact Hamp].
Defined.

Lemma digitar_init_samples_in_order_witness :
  (0 < 2)%Z /\
  exists self : Digitar SawtoothWave,
    @Digitar_init 44100 _ (SawtoothWave_Signal 44100) 11025 2
      (SawtoothWave_init 11025) = Ok self /\
    length (sample_window self) = 2%nat /\ cur_frame self = 0%Z.
Proof.
  split; [reflexivity|].
  assert (Hr : exists window w',
             @run_amplitudes _ _ (SawtoothWave_Signal 44100) (SawtoothWave_init 11025)
               (map (fun i => (0 + Z.of_nat i)%Z) (seq 0 (Z.to_nat 2)))
             = Ok (window, w')).
  { do 2 eexists. vm_compute. reflexivity. }
  destruct Hr as (window & w' & Hr).
  destruct (proj1 (@digitar_init_samples_in_order 44100 eq_refl _
                     (SawtoothWave_Signal 44100) 11025 2
                     (SawtoothWave_init 11025) eq_refl) window w' Hr)
    as [Hlen Hinit].
  eexists. split; [exact Hinit|]. split; [exact Hlen | reflexivity].
Defined.

Lemma digitar_forward_seeks_compose_witness :
  let self := @mkDigitar SawtoothWave (Sample_init 11025) (SawtoothWave_init 11025)
                2 [1; 0] 0 (1 # 2) 0 false in
  exists self1,
    (cur_frame self <= 1)%Z /\ (1 <= 3)%Z /\ seek self 1 = Ok self1 /\
    seek self1 3 = seek self 3 /\
    Digitar_amplitude self1 3 = Digitar_amplitude self 3.
Proof.
  intros self.
  assert (Hs : exists self1, seek self 1 = Ok self1)
    by (eexists; vm_compute; reflexivity).
  destruct Hs as [self1 Hs]. exists self1.
  split; [discriminate|]. split; [discriminate|]. split; [exact Hs|].
  apply (digitar_forward_seeks_compose self 1 3 self1); [discriminate.. | exact Hs].
Defined.

Lemma digitar_circular_buffer_witness :
  let self := @mkDigitar SawtoothWave (Sample_init 11025) (SawtoothWave_init 11025)
                2 [1; 0] 0 (1 # 2) 0 false in
  wellformed self /\
  get_buffer self (1 + -3 * 2) = get_buffer self 1 /\
  exists self',
    set_buffer self 1 (1 # 3) = Ok self' /\
    get_buffer self' (1 + -3 * 2) = Ok (1 # 3) /\
    get_buffer self' 4 = get_buffer self 4.
Proof.
  intros self.
  assert (Hwf : wellformed self) by (split; reflexivity).
  split; [exact Hwf|].
  destruct (digitar_circular_buffer self 1 4 (-3) (1 # 3) Hwf)
    as (Hshift & self' & Hset & _ & _ & Hget & Hother).
  split; [exact Hshift|].
  exists self'. split; [exact Hset|]. split; [exact Hget|].
  apply Hother. discriminate.
Defined.

Lemma digitar_new_buffer_restores_witness :
  exists self0 self : Digitar SawtoothWave,
    @Digitar_init 44100 _ (SawtoothWave_Signal 44100) 11025 2
      (SawtoothWave_init 11025) = Ok self0 /\
    seek self0 3 = Ok self /\
    @new_buffer _ (SawtoothWave_Signal 44100) self = Ok self0.
Proof.
  assert (Hi : exists self0 self : Digitar SawtoothWave,
             @Digitar_init 44100 _ (SawtoothWave_Signal 44100) 11025 2
               (SawtoothWave_init 11025) = Ok self0 /\
             seek self0 3 = Ok self).
  { do 2 eexists. split; vm_compute; reflexivity. }
  destruct Hi as (self0 & self & Hi & Hs).
  exists self0, self. split; [exact Hi|]. split; [exact Hs|].
  destruct (@digitar_new_buffer_restores 44100 _ (SawtoothWave_Signal 44100)
              11025 2 (SawtoothWave_init 11025) self0 self0
              (SawtoothWave_amplitude_state 44100) Hi (same_config_refl self0))
    as (_ & Hseek & _).
  exact (Hseek 3%Z self Hs).
Defined.

Lemma digitar_noise_source_bounded_witness :
  (0 < 2)%Z /\ (forall k : nat, 0 <= 1 # 4 /\ 1 # 4 < 1) /\
  exists (self : Digitar Noise) (outs : list Q) (self' : Digitar Noise),
    @Digitar_init 44100 _ Noise_Signal 110 2 (Noise_init (mkRng (fun _ => 1 # 4) 0))
      = Ok self /\
    pos (noise_rng (wavesrc self)) = 2%nat /\
    @run_amplitudes _ _ Digitar_amplitude self [4; 9]%Z = Ok (outs, self') /\
    (forall i v, outs !! i = Some v -> -1 <= v /\ v <= 1).
Proof.
  split; [reflexivity|].
  assert (Hd : forall k : nat, 0 <= 1 # 4 /\ 1 # 4 < 1)
    by (intros k; split; [discriminate | reflexivity]).
  split; [exact Hd|].
  destruct (digitar_noise_source_bounded 44100 eq_refl 110 2
              (mkRng (fun _ => 1 # 4) 0) [4; 9]%Z eq_refl Hd)
    as (self & outs & self' & Hinit & _ & Hpos & _ & Hrun & _ & Hout).
  exists self, outs, self'. split; [exact Hinit|]. split; [exact Hpos|].
  split; [exact Hrun | exact Hout].
Defined.

Lemma noise_generators_ignore_frame_witness :
  length [0; 0]%Z = length [3; 7]%Z /\
  forall self : BrownNoise,
    @run_amplitudes _ _ BrownNoise_Signal self [0; 0]%Z
    = @run_amplitudes _ _ BrownNoise_Signal self [3; 7]%Z.
Proof.
  split; [reflexivity|].
  apply (noise_generators_ignore_frame [0; 0]%Z [3; 7]%Z eq_refl).
Defined.

Lemma digitar_filter_sweep_witness :
  exists self self' : Digitar SawtoothWave,
    (0 < 4)%Z /\ (0 <= 2 < 4)%Z /\ (3 = 0 \/ 2 < 3)%Z /\
    @Digitar_init 44100 _ (SawtoothWave_Signal 44100) 11025 4
      (SawtoothWave_init 11025) = Ok self /\
    seek self 2 = Ok self' /\
    sample_window self' !! Z.to_nat 3 = sample_window self !! Z.to_nat 3.
Proof.
  assert (Hi : exists self self' : Digitar SawtoothWave,
             @Digitar_init 44100 _ (SawtoothWave_Signal 44100) 11025 4
               (SawtoothWave_init 11025) = Ok self /\
             seek self 2 = Ok self').
  { do 2 eexists. split; vm_compute; reflexivity. }
  destruct Hi as (self & self' & Hi & Hs).
  exists self, self'. split; [reflexivity|]. split; [lia|]. split; [lia|].
  split; [exact Hi|]. split; [exact Hs|].
  apply (@digitar_filter_sweep 44100 _ (SawtoothWave_Signal 44100) 11025 4
           (SawtoothWave_init 11025) self 2 self' 3 eq_refl Hi); [lia | exact Hs | lia].
Defined.

(** ** The generators on doubles at concrete inputs *)

(** C7 fails as stated: at 44100 frames per second and frequency 105 the
    quotient sample rate / frequency is the positive integer 420, but the
    period the code computes in doubles is 420 + 2^-44, so that frame 420
    still lies inside the first period: the square wave is -1 at frame
    0 + 1 * 420 and 1 at frame 0. *)
Lemma periodic_waves_not_periodic_on_doubles :
  44100 / 105 == inject_Z 420 /\ (0 < 420)%Z /\ (0 <= 0)%Z /\
  period_fl 44100 round53 (Sample_init 105)
    = Ok (7388718138654721 # 17592186044416) /\
  SquareWave_amplitude_fl 44100 round53 (SquareWave_init 105 (1 # 2))
    (0 + Z.of_nat 1 * 420) = Ok (-1, SquareWave_init 105 (1 # 2)) /\
  SquareWave_amplitude_fl 44100 round53 (SquareWave_init 105 (1 # 2)) 0
    = Ok (1, SquareWave_init 105 (1 # 2)) /\
  ~ -1 == 1.
Proof.
  split; [reflexivity|]. split; [reflexivity|]. split; [discriminate|].
  split; [vm_compute; reflexivity|].
  split; [vm_compute; reflexivity|].
  split; [vm_compute; reflexivity|].
  discriminate.
Qed.

Lemma periodic_waves_periodic_on_doubles_witness :
  period_fl 44100 round53 (Sample_init 441) = Ok 100 /\
  (0 <= 7)%Z /\
  exists v' v,
    TriangleWave_amplitude_fl 44100 round53 (TriangleWave_init 441)
      (7 + Z.of_nat 3 * 100) = Ok (v', TriangleWave_init 441) /\
    TriangleWave_amplitude_fl 44100 round53 (TriangleWave_init 441) 7
      = Ok (v, TriangleWave_init 441) /\ v' == v.
Proof.
  assert (Hp : period_fl 44100 round53 (Sample_init 441) = Ok 100)
    by (vm_compute; reflexivity).
  split; [exact Hp|]. split; [discriminate|].
  apply (periodic_waves_periodic_on_doubles 44100 round53 441 (1 # 2) 100 100 7 3
           round53_comp Hp); try reflexivity. discriminate.
Defined.

(** C8 fails as stated: with [fac] the double 0.1 and three draws equal to
    0 (step factor -1), the values returned on doubles are -0.1, -0.2 and
    -0.30000000000000004: the last two differ by more than [fac]. *)
Lemma brown_noise_step_exceeds_fac_on_doubles :
  let fc := round53 (1 # 10) in
  0 < fc /\ (-1 <= 0 * 2 - 1 /\ 0 * 2 - 1 <= 1) /\
  exists (outs : list Q) (self' : BrownNoise) (a b : Q),
    @run_amplitudes _ _ (BrownNoise_amplitude_fl round53)
      (BrownNoise_init fc (mkRng (fun _ => 0) 0)) [0; 1; 2]%Z = Ok (outs, self') /\
    outs !! 1%nat = Some a /\ outs !! 2%nat = Some b /\
    a = -3602879701896397 # 18014398509481984 /\
    b = -1351079888211149 # 4503599627370496 /\
    ~ Qabs (b - a) <= fc.
Proof.
  intros fc. split; [reflexivity|]. split; [split; discriminate|].
  do 4 eexists. split; [vm_compute; reflexivity|].
  split; [reflexivity|]. split; [reflexivity|].
  split; [reflexivity|]. split; [reflexivity|].
  intros H. vm_compute in H. apply H. reflexivity.
Qed.

Lemma brown_noise_walk_on_doubles_witness :
  let fc := round53 (1 # 10) in
  0 < fc /\ (forall n : nat, 0 <= 0 /\ 0 <= 1) /\
  exists (outs : list Q) (self' : BrownNoise),
    @run_amplitudes _ _ (BrownNoise_amplitude_fl round53)
      (BrownNoise_init fc (mkRng (fun _ => 0) 0)) [0; 1; 2]%Z
      = Ok (outs, self') /\
    (forall i v, outs !! i = Some v -> -1 <= v /\ v <= 1) /\
    (forall i a b, (0 :: outs) !! i = Some a -> outs !! i = Some b ->
                   exists s, Qabs s <= fc /\ b = clamp (round53 (a + s))).
Proof.
  intros fc.
  assert (Hd : forall n : nat, 0 <= 0 /\ 0 <= 1)
    by (intros n; split; discriminate).
  split; [reflexivity|]. split; [exact Hd|].
  assert (H0 : round53 0 == 0) by (vm_compute; reflexivity).
  assert (H2 : round53 2 == 2) by (vm_compute; reflexivity).
  assert (H1 : round53 1 == 1) by (vm_compute; reflexivity).
  assert (Hm1 : round53 (-1) == -1) by (vm_compute; reflexivity).
  assert (Hfc : round53 fc == fc) by (vm_compute; reflexivity).
  assert (Hmfc : round53 (- fc) == - fc) by (vm_compute; reflexivity).
  assert (Hpos : 0 < fc) by reflexivity.
  destruct (brown_noise_walk_on_doubles round53 fc
              (mkRng (fun _ => 0) 0) [0; 1; 2]%Z
              round53_mono H0 H2 H1 Hm1 Hfc Hmfc Hpos Hd)
    as (outs & self' & Hrun & _ & Hrange & Hstep).
  exists outs, self'. split; [exact Hrun|]. split; [exact Hrange | exact Hstep].
Defined.

(** C9 fails as stated: [new_buffer] is an operation and samples the wave
    source again.  On a Digitar of 2 entries built on white noise, the
    constructor has consumed 2 draws; a call of [new_buffer] consumes 2 more
    and replaces the wavetable by the values drawn. *)
Lemma digitar_new_buffer_samples_again :
  exists d d' : Digitar Noise,
    @Digitar_init 44100 _ Noise_Signal 110 2
      (Noise_init (mkRng (fun n => Z.of_nat n # 4) 0)) = Ok d /\
    @new_buffer _ Noise_Signal d = Ok d' /\
    pos (noise_rng (wavesrc d)) = 2%nat /\
    pos (noise_rng (wavesrc d')) = 4%nat /\
    map Qred (sample_window d) = [-1; -1 # 2] /\
    map Qred (sample_window d') = [0; 1 # 2] /\
    wavesrc d' <> wavesrc d.
Proof.
  do 2 eexists.
  split; [vm_compute; reflexivity|].
  split; [vm_compute; reflexivity|].
  do 4 (split; [reflexivity|]).
  intros H. apply (f_equal (fun w => pos (noise_rng w))) in H. discriminate.
Qed.
